(** * SoftPool CUDA kernels: a shallow embedding of
      [pytorch/CUDA/softpool_cuda_kernel.cu]

    The six kernels (forward and backward, 1D/2D/3D) are C++ templates over
    the element type [scalar_t].  The embedding keeps that shape: every
    kernel is a Rocq function over a type class [Scalar] that lists the
    arithmetic the kernels call.  Two instances are given: exact real
    arithmetic ([R], where the algebraic properties are proved) and IEEE
    binary64 ([float], where the kernels run by computation).

    C [int] values are [Z]; [/] and [%] are [Z.quot] and [Z.rem] (truncation
    toward zero).  Signed overflow and division by zero are undefined in C
    and are not modelled ([Z.quot a 0] is 0 and [Z.rem a 0] is [a]).
    A device pointer is a total function from offsets to elements, so a read
    past the end of a buffer returns whatever the function holds there. *)

From Stdlib Require Import ZArith List Bool Lia Reals Lra.
From Stdlib Require Import Uint63 Floats Permutation.
Import ListNotations.
Open Scope Z_scope.

(** ** The element type *)

(** The operations of [scalar_t] the kernels use.  [s_of_int] is the
    conversion from [int] (the literal [0.] is [s_of_int 0]); [s_abs],
    [s_min], [s_max] and [s_exp] are the device overloads of [abs], [min],
    [max] and [exp]. *)
Class Scalar (scalar_t : Type) : Type := {
  s_of_int : Z -> scalar_t;
  s_add : scalar_t -> scalar_t -> scalar_t;
  s_mul : scalar_t -> scalar_t -> scalar_t;
  s_div : scalar_t -> scalar_t -> scalar_t;
  s_lt : scalar_t -> scalar_t -> bool;
  s_abs : scalar_t -> scalar_t;
  s_min : scalar_t -> scalar_t -> scalar_t;
  s_max : scalar_t -> scalar_t -> scalar_t;
  s_exp : scalar_t -> scalar_t;
  (** Modelled from the spec: [n_limits<scalar_t>::max()] and
      [n_limits<scalar_t>::min()] come from [limits.cuh], which is not part
      of the sources; the spec calls them max-representable and
      min-representable. *)
  n_limits_max : scalar_t;
  n_limits_min : scalar_t
}.

(** A device buffer, addressed by offset from its base pointer. *)
Definition buffer (scalar_t : Type) : Type := Z -> scalar_t.

(** [p[i] = v]. *)
Definition store {scalar_t : Type} (p : buffer scalar_t) (i : Z) (v : scalar_t)
  : buffer scalar_t :=
  fun j => if j =? i then v else p j.

(** [0, 1, ..., n-1]; empty when [n <= 0]. *)
Definition range (n : Z) : list Z := map Z.of_nat (seq 0 (Z.to_nat n)).

(** [for (int i = 0; i < n; i++) body], threading the loop state. *)
Definition for_loop {S : Type} (n : Z) (body : Z -> S -> S) (s : S) : S :=
  fold_left (fun acc i => body i acc) (range n) s.

Section Kernels.

Context {scalar_t : Type} `{Scalar scalar_t}.

Definition zero : scalar_t := s_of_int 0.

(** [sgn]: the difference of two comparisons, converted to [scalar_t]. *)
Definition sgn (val : scalar_t) : scalar_t :=
  s_of_int (Z.b2z (s_lt (s_of_int 0) val) - Z.b2z (s_lt val (s_of_int 0))).

(** [clamp]: bound the magnitude, then restore the sign. *)
Definition clamp (n lower upper : scalar_t) : scalar_t :=
  let tmp := s_abs n in
  let result := s_max lower (s_min tmp upper) in
  s_mul result (sgn n).

(** [p + k] for a read-only pointer [p]. *)
Definition ptr_add (p : buffer scalar_t) (k : Z) : buffer scalar_t :=
  fun i => p (k + i).

(** [atomicAdd(p + i, v)].  The addends a thread passes never depend on the
    gradient buffer, so an atomic add is modelled as one read-add-write. *)
Definition atomicAdd (p : buffer scalar_t) (i : Z) (v : scalar_t)
  : buffer scalar_t :=
  store p i (s_add (p i) v).

(** [CUDA_1D_KERNEL_LOOP(index, nthreads)]: the grid-stride loop hands every
    [index] in [0, nthreads) to exactly one thread.  The model runs the
    bodies one after the other in increasing [index]. *)
Definition CUDA_1D_KERNEL_LOOP {S : Type} (nthreads : Z) (body : Z -> S -> S)
  (s : S) : S :=
  for_loop nthreads body s.

(** *** Forward kernels *)

(** Body of the thread loop of [SoftPool1dForward]. *)
Definition SoftPool1dForward_thread (bottom_input : buffer scalar_t)
  (batches channels dim kernel_d stride_d : Z)
  (index : Z) (output_data : buffer scalar_t) : buffer scalar_t :=
  let pooled_dim := dim ÷ stride_d in
  let pd := Z.rem index pooled_dim in
  let c := Z.rem (index ÷ pooled_dim) channels in
  let n := index ÷ pooled_dim ÷ channels in
  let offset := (n * channels + c) * dim in
  let offset_bottom_input := ptr_add bottom_input offset in
  let mask_sum := zero in
  let output_data := store output_data index zero in
  let upper := n_limits_max in
  let lower := n_limits_min in
  let mask_sum :=
    for_loop kernel_d (fun id mask_sum =>
      let d_offset := pd * stride_d + id - kernel_d ÷ 2 in
      if (d_offset >=? dim) || (d_offset <? 0) then mask_sum else
      let offset := d_offset in
      let mask := s_exp (offset_bottom_input offset) in
      let mask := clamp mask zero upper in
      s_add mask_sum mask) mask_sum in
  let mask_sum := clamp mask_sum lower upper in
  for_loop kernel_d (fun id output_data =>
    let d_offset := pd * stride_d + id - kernel_d ÷ 2 in
    if (d_offset >=? dim) || (d_offset <? 0) then output_data else
    let offset := d_offset in
    let mask := s_exp (offset_bottom_input offset) in
    let mask := clamp mask zero upper in
    let mask := s_div mask mask_sum in
    let mask := clamp mask zero upper in
    let weighted_inp := s_mul (offset_bottom_input offset) mask in
    let weighted_inp := clamp weighted_inp zero upper in
    let output_data :=
      store output_data index (s_add (output_data index) weighted_inp) in
    store output_data index (clamp (output_data index) zero upper))
    output_data.

Definition SoftPool1dForward (nthreads : Z) (bottom_input : buffer scalar_t)
  (batches channels dim kernel_d stride_d : Z)
  (output_data : buffer scalar_t) : buffer scalar_t :=
  CUDA_1D_KERNEL_LOOP nthreads
    (SoftPool1dForward_thread bottom_input batches channels dim
       kernel_d stride_d)
    output_data.

(** Body of the thread loop of [SoftPool2dForward]. *)
Definition SoftPool2dForward_thread (bottom_input : buffer scalar_t)
  (batches channels height width kernel_h kernel_w stride_h stride_w : Z)
  (index : Z) (output_data : buffer scalar_t) : buffer scalar_t :=
  let pooled_height := height ÷ stride_h in
  let pooled_width := width ÷ stride_w in
  let pw := Z.rem index pooled_width in
  let ph := Z.rem (index ÷ pooled_width) pooled_height in
  let c := Z.rem (index ÷ pooled_width ÷ pooled_height) channels in
  let n := index ÷ pooled_width ÷ pooled_height ÷ channels in
  let offset := (n * channels + c) * height * width in
  let offset_bottom_input := ptr_add bottom_input offset in
  let mask_sum := zero in
  let output_data := store output_data index zero in
  let upper := n_limits_max in
  let lower := n_limits_min in
  let mask_sum :=
    for_loop kernel_h (fun iy mask_sum =>
      let y_offset := ph * stride_h + iy - kernel_h ÷ 2 in
      if (y_offset >=? height) || (y_offset <? 0) then mask_sum else
      for_loop kernel_w (fun ix mask_sum =>
        let x_offset := pw * stride_w + ix - kernel_w ÷ 2 in
        if (x_offset >=? width) || (x_offset <? 0) then mask_sum else
        let offset := y_offset * width + x_offset in
        let mask := s_exp (offset_bottom_input offset) in
        let mask := clamp mask zero upper in
        s_add mask_sum mask) mask_sum) mask_sum in
  let mask_sum := clamp mask_sum lower upper in
  for_loop kernel_h (fun iy output_data =>
    let y_offset := ph * stride_h + iy - kernel_h ÷ 2 in
    if (y_offset >=? height) || (y_offset <? 0) then output_data else
    for_loop kernel_w (fun ix output_data =>
      let x_offset := pw * stride_w + ix - kernel_w ÷ 2 in
      if (x_offset >=? width) || (x_offset <? 0) then output_data else
      let offset := y_offset * width + x_offset in
      let mask := s_exp (offset_bottom_input offset) in
      let mask := clamp mask zero upper in
      let mask := s_div mask mask_sum in
      let mask := clamp mask zero upper in
      let weighted_inp := s_mul (offset_bottom_input offset) mask in
      let weighted_inp := clamp weighted_inp zero upper in
      let output_data :=
        store output_data index (s_add (output_data index) weighted_inp) in
      store output_data index (clamp (output_data index) zero upper))
      output_data)
    output_data.

Definition SoftPool2dForward (nthreads : Z) (bottom_input : buffer scalar_t)
  (batches channels height width kernel_h kernel_w stride_h stride_w : Z)
  (output_data : buffer scalar_t) : buffer scalar_t :=
  CUDA_1D_KERNEL_LOOP nthreads
    (SoftPool2dForward_thread bottom_input batches channels height width
       kernel_h kernel_w stride_h stride_w)
    output_data.

(** Body of the thread loop of [SoftPool3dForward]. *)
Definition SoftPool3dForward_thread (bottom_input : buffer scalar_t)
  (batches channels depth height width : Z)
  (kernel_d kernel_h kernel_w stride_d stride_h stride_w : Z)
  (index : Z) (output_data : buffer scalar_t) : buffer scalar_t :=
  let pooled_depth := depth ÷ stride_d in
  let pooled_height := height ÷ stride_h in
  let pooled_width := width ÷ stride_w in
  let pw := Z.rem index pooled_width in
  let ph := Z.rem (index ÷ pooled_width) pooled_height in
  let pd := Z.rem (index ÷ pooled_width ÷ pooled_height) pooled_depth in
  let c :=
    Z.rem (index ÷ pooled_width ÷ pooled_height ÷ pooled_depth) channels in
  let n := index ÷ pooled_width ÷ pooled_height ÷ pooled_depth ÷ channels in
  let offset := (n * channels + c) * depth * height * width in
  let offset_bottom_input := ptr_add bottom_input offset in
  let mask_sum := zero in
  let output_data := store output_data index zero in
  let upper := n_limits_max in
  let lower := n_limits_min in
  let mask_sum :=
    for_loop kernel_d (fun id mask_sum =>
      let d_offset := pd * stride_d + id - kernel_d ÷ 2 in
      if (d_offset >=? depth) || (d_offset <? 0) then mask_sum else
      for_loop kernel_h (fun iy mask_sum =>
        let y_offset := ph * stride_h + iy - kernel_h ÷ 2 in
        if (y_offset >=? height) || (y_offset <? 0) then mask_sum else
        for_loop kernel_w (fun ix mask_sum =>
          let x_offset := pw * stride_w + ix - kernel_w ÷ 2 in
          if (x_offset >=? width) || (x_offset <? 0) then mask_sum else
          let offset := d_offset * height + y_offset * width + x_offset in
          let mask := s_exp (offset_bottom_input offset) in
          let mask := clamp mask zero upper in
          s_add mask_sum mask) mask_sum) mask_sum) mask_sum in
  let mask_sum := clamp mask_sum lower upper in
  for_loop kernel_d (fun id output_data =>
    let d_offset := pd * stride_d + id - kernel_d ÷ 2 in
    if (d_offset >=? depth) || (d_offset <? 0) then output_data else
    for_loop kernel_h (fun iy output_data =>
      let y_offset := ph * stride_h + iy - kernel_h ÷ 2 in
      if (y_offset >=? height) || (y_offset <? 0) then output_data else
      for_loop kernel_w (fun ix output_data =>
        let x_offset := pw * stride_w + ix - kernel_w ÷ 2 in
        if (x_offset >=? width) || (x_offset <? 0) then output_data else
        let offset := d_offset * height + y_offset * width + x_offset in
        let mask := s_exp (offset_bottom_input offset) in
        let mask := clamp mask zero upper in
        let mask := s_div mask mask_sum in
        let mask := clamp mask zero upper in
        let weighted_inp := s_mul (offset_bottom_input offset) mask in
        let weighted_inp := clamp weighted_inp zero upper in
        let output_data :=
          store output_data index (s_add (output_data index) weighted_inp) in
        store output_data index (clamp (output_data index) zero upper))
        output_data)
      output_data)
    output_data.

Definition SoftPool3dForward (nthreads : Z) (bottom_input : buffer scalar_t)
  (batches channels depth height width : Z)
  (kernel_d kernel_h kernel_w stride_d stride_h stride_w : Z)
  (output_data : buffer scalar_t) : buffer scalar_t :=
  CUDA_1D_KERNEL_LOOP nthreads
    (SoftPool3dForward_thread bottom_input batches channels depth height width
       kernel_d kernel_h kernel_w stride_d stride_h stride_w)
    output_data.

(** *** Backward kernels *)

(** Body of the thread loop of [SoftPool1dBackward]. *)
Definition SoftPool1dBackward_thread (diff_output data_input : buffer scalar_t)
  (batches channels dim kernel_d stride_d : Z)
  (index : Z) (diff_input : buffer scalar_t) : buffer scalar_t :=
  let pooled_dim := dim ÷ stride_d in
  let pd := Z.rem index pooled_dim in
  let c := Z.rem (index ÷ pooled_dim) channels in
  let n := index ÷ pooled_dim ÷ channels in
  let offset0 := (n * channels + c) * dim in
  let offset_data_input := ptr_add data_input offset0 in
  let diff_output_index := diff_output index in
  let base_d := pd * stride_d - kernel_d ÷ 2 in
  let mask_sum := zero in
  let upper := n_limits_max in
  let lower := n_limits_min in
  let mask_sum :=
    for_loop kernel_d (fun id mask_sum =>
      let d_offset := base_d + id in
      if (d_offset >=? dim) || (d_offset <? 0) then mask_sum else
      let offset := d_offset in
      let mask := s_exp (offset_data_input offset) in
      let mask := clamp mask zero upper in
      s_add mask_sum mask) mask_sum in
  let mask_sum := clamp mask_sum lower upper in
  for_loop kernel_d (fun id diff_input =>
    let d_offset := base_d + id in
    if (d_offset >=? dim) || (d_offset <? 0) then diff_input else
    let offset := d_offset in
    let mask := s_exp (offset_data_input offset) in
    let mask := clamp mask zero upper in
    let mask := s_div mask mask_sum in
    let mask := clamp mask zero upper in
    let weighted_grad := s_mul diff_output_index mask in
    let weighted_grad := clamp weighted_grad zero upper in
    atomicAdd diff_input (offset0 + offset) weighted_grad)
    diff_input.

Definition SoftPool1dBackward (nthreads : Z)
  (diff_output data_input : buffer scalar_t)
  (batches channels dim kernel_d stride_d : Z)
  (diff_input : buffer scalar_t) : buffer scalar_t :=
  CUDA_1D_KERNEL_LOOP nthreads
    (SoftPool1dBackward_thread diff_output data_input batches channels dim
       kernel_d stride_d)
    diff_input.

(** Body of the thread loop of [SoftPool2dBackward]. *)
Definition SoftPool2dBackward_thread (diff_output data_input : buffer scalar_t)
  (batches channels height width kernel_h kernel_w stride_h stride_w : Z)
  (index : Z) (diff_input : buffer scalar_t) : buffer scalar_t :=
  let pooled_height := height ÷ stride_h in
  let pooled_width := width ÷ stride_w in
  let pw := Z.rem index pooled_width in
  let ph := Z.rem (index ÷ pooled_width) pooled_height in
  let c := Z.rem (index ÷ pooled_width ÷ pooled_height) channels in
  let n := index ÷ pooled_width ÷ pooled_height ÷ channels in
  let offset0 := (n * channels + c) * height * width in
  let offset_data_input := ptr_add data_input offset0 in
  let diff_output_index := diff_output index in
  let base_y := ph * stride_h - kernel_h ÷ 2 in
  let base_x := pw * stride_w - kernel_w ÷ 2 in
  let mask_sum := zero in
  let upper := n_limits_max in
  let lower := n_limits_min in
  let mask_sum :=
    for_loop kernel_h (fun iy mask_sum =>
      let y_offset := base_y + iy in
      if (y_offset >=? height) || (y_offset <? 0) then mask_sum else
      for_loop kernel_w (fun ix mask_sum =>
        let x_offset := base_x + ix in
        if (x_offset >=? width) || (x_offset <? 0) then mask_sum else
        let offset := y_offset * width + x_offset in
        let mask := s_exp (offset_data_input offset) in
        let mask := clamp mask zero upper in
        s_add mask_sum mask) mask_sum) mask_sum in
  let mask_sum := clamp mask_sum lower upper in
  for_loop kernel_h (fun iy diff_input =>
    let y_offset := base_y + iy in
    if (y_offset >=? height) || (y_offset <? 0) then diff_input else
    for_loop kernel_w (fun ix diff_input =>
      let x_offset := base_x + ix in
      if (x_offset >=? width) || (x_offset <? 0) then diff_input else
      let offset := y_offset * width + x_offset in
      let mask := s_exp (offset_data_input offset) in
      let mask := clamp mask zero upper in
      let mask := s_div mask mask_sum in
      let mask := clamp mask zero upper in
      let weighted_grad := s_mul diff_output_index mask in
      let weighted_grad := clamp weighted_grad zero upper in
      atomicAdd diff_input (offset0 + offset) weighted_grad)
      diff_input)
    diff_input.

Definition SoftPool2dBackward (nthreads : Z)
  (diff_output data_input : buffer scalar_t)
  (batches channels height width kernel_h kernel_w stride_h stride_w : Z)
  (diff_input : buffer scalar_t) : buffer scalar_t :=
  CUDA_1D_KERNEL_LOOP nthreads
    (SoftPool2dBackward_thread diff_output data_input batches channels
       height width kernel_h kernel_w stride_h stride_w)
    diff_input.

(** Body of the thread loop of [SoftPool3dBackward].  [pooled_height] is
    computed from [width], as in the source. *)
Definition SoftPool3dBackward_thread (diff_output data_input : buffer scalar_t)
  (batches channels depth height width : Z)
  (kernel_d kernel_h kernel_w stride_d stride_h stride_w : Z)
  (index : Z) (diff_input : buffer scalar_t) : buffer scalar_t :=
  let pooled_depth := depth ÷ stride_d in
  let pooled_height := width ÷ stride_h in
  let pooled_width := width ÷ stride_w in
  let pw := Z.rem index pooled_width in
  let ph := Z.rem (index ÷ pooled_width) pooled_height in
  let pd := Z.rem (index ÷ pooled_width ÷ pooled_height) pooled_depth in
  let c :=
    Z.rem (index ÷ pooled_width ÷ pooled_height ÷ pooled_depth) channels in
  let n := index ÷ pooled_width ÷ pooled_height ÷ pooled_depth ÷ channels in
  let offset0 := (n * channels + c) * depth * height * width in
  let offset_data_input := ptr_add data_input offset0 in
  let diff_output_index := diff_output index in
  let base_d := pd * stride_d - kernel_d ÷ 2 in
  let base_y := ph * stride_h - kernel_h ÷ 2 in
  let base_x := pw * stride_w - kernel_w ÷ 2 in
  let mask_sum := zero in
  let upper := n_limits_max in
  let lower := n_limits_min in
  let mask_sum :=
    for_loop kernel_d (fun id mask_sum =>
      let d_offset := base_d + id in
      if (d_offset >=? depth) || (d_offset <? 0) then mask_sum else
      for_loop kernel_h (fun iy mask_sum =>
        let y_offset := base_y + iy in
        if (y_offset >=? height) || (y_offset <? 0) then mask_sum else
        for_loop kernel_w (fun ix mask_sum =>
          let x_offset := base_x + ix in
          if (x_offset >=? width) || (x_offset <? 0) then mask_sum else
          let offset := d_offset * height + y_offset * width + x_offset in
          let mask := s_exp (offset_data_input offset) in
          let mask := clamp mask zero upper in
          s_add mask_sum mask) mask_sum) mask_sum) mask_sum in
  let mask_sum := clamp mask_sum lower upper in
  for_loop kernel_d (fun id diff_input =>
    let d_offset := base_d + id in
    if (d_offset >=? depth) || (d_offset <? 0) then diff_input else
    for_loop kernel_h (fun iy diff_input =>
      let y_offset := base_y + iy in
      if (y_offset >=? height) || (y_offset <? 0) then diff_input else
      for_loop kernel_w (fun ix diff_input =>
        let x_offset := base_x + ix in
        if (x_offset >=? width) || (x_offset <? 0) then diff_input else
        let offset := d_offset * height + y_offset * width + x_offset in
        let mask := s_exp (offset_data_input offset) in
        let mask := clamp mask zero upper in
        let mask := s_div mask mask_sum in
        let mask := clamp mask zero upper in
        let weighted_grad := s_mul diff_output_index mask in
        let weighted_grad := clamp weighted_grad zero upper in
        atomicAdd diff_input (offset0 + offset) weighted_grad)
        diff_input)
      diff_input)
    diff_input.

Definition SoftPool3dBackward (nthreads : Z)
  (diff_output data_input : buffer scalar_t)
  (batches channels depth height width : Z)
  (kernel_d kernel_h kernel_w stride_d stride_h stride_w : Z)
  (diff_input : buffer scalar_t) : buffer scalar_t :=
  CUDA_1D_KERNEL_LOOP nthreads
    (SoftPool3dBackward_thread diff_output data_input batches channels
       depth height width kernel_d kernel_h kernel_w
       stride_d stride_h stride_w)
    diff_input.

(** *** Launchers *)

(** Each launcher computes [output_size] and runs its kernel over that many
    threads.  The checks of [cudaGetLastError] and the return value 1 are
    not modelled: a launcher is the buffer its kernel leaves. *)

Definition SoftPool1dForwardLauncher (input : buffer scalar_t)
  (batches channels dim kernel_d stride_d : Z) (output : buffer scalar_t)
  : buffer scalar_t :=
  let output_size := batches * dim ÷ stride_d * channels in
  SoftPool1dForward output_size input batches channels dim kernel_d stride_d
    output.


Definition SoftPool3dForwardLauncher (input : buffer scalar_t)
  (batches channels depth height width : Z)
  (kernel_d kernel_h kernel_w stride_d stride_h stride_w : Z)
  (output : buffer scalar_t) : buffer scalar_t :=
  let output_size :=
    batches * depth ÷ stride_d * height ÷ stride_h * width ÷ stride_w
    * channels in
  SoftPool3dForward output_size input batches channels depth height width
    kernel_d kernel_h kernel_w stride_d stride_h stride_w output.

Definition SoftPool1dBackwardLauncher (output_grad input : buffer scalar_t)
  (batches channels dim kernel_d stride_d : Z) (input_grad : buffer scalar_t)
  : buffer scalar_t :=
  let output_size := batches * dim ÷ stride_d * channels in
  SoftPool1dBackward output_size output_grad input batches channels dim
    kernel_d stride_d input_grad.

Definition SoftPool2dBackwardLauncher (output_grad input : buffer scalar_t)
  (batches channels height width kernel_h kernel_w stride_h stride_w : Z)
  (input_grad : buffer scalar_t) : buffer scalar_t :=
  let output_size :=
    batches * height ÷ stride_h * width ÷ stride_w * channels in
  SoftPool2dBackward output_size output_grad input batches channels
    height width kernel_h kernel_w stride_h stride_w input_grad.

Definition SoftPool3dBackwardLauncher (output_grad input : buffer scalar_t)
  (batches channels depth height width : Z)
  (kernel_d kernel_h kernel_w stride_d stride_h stride_w : Z)
  (input_grad : buffer scalar_t) : buffer scalar_t :=
  let output_size :=
    batches * depth ÷ stride_d * height ÷ stride_h * width ÷ stride_w
    * channels in
  SoftPool3dBackward output_size output_grad input batches channels
    depth height width kernel_d kernel_h kernel_w
    stride_d stride_h stride_w input_grad.

End Kernels.

(** ** Instances of the element type *)

(** Exact real arithmetic with limits [upper] and [lower]. *)
Definition R_scalar (upper lower : R) : Scalar R := {|
  s_of_int := IZR;
  s_add := Rplus;
  s_mul := Rmult;
  s_div := Rdiv;
  s_lt := fun a b => if Rlt_dec a b then true else false;
  s_abs := Rabs;
  s_min := Rmin;
  s_max := Rmax;
  s_exp := exp;
  n_limits_max := upper;
  n_limits_min := lower
|}.

(** [FLT_MAX] and [FLT_MIN], the single-precision limits, as reals. *)
Definition FLT_MAX : R := 340282346638528859811704183484516925440.
Definition FLT_MIN : R := / 85070591730234615865843651857942052864.

(** Real arithmetic clamped at the single-precision limits. *)
Definition R_float : Scalar R := R_scalar FLT_MAX FLT_MIN.

(** The device [max] and [min] on floating-point numbers are [fmax] and
    [fmin]: a NaN operand is dropped in favour of the other one. *)
Definition fmax (a b : float) : float :=
  if PrimFloat.is_nan a then b
  else if PrimFloat.is_nan b then a
  else if PrimFloat.ltb a b then b else a.

Definition fmin (a b : float) : float :=
  if PrimFloat.is_nan a then b
  else if PrimFloat.is_nan b then a
  else if PrimFloat.ltb a b then a else b.

(** Conversion of an [int] to binary64 (exact for 32-bit values). *)
Definition float_of_int (z : Z) : float :=
  match z with
  | Z0 => PrimFloat.zero
  | Zpos _ => PrimFloat.of_uint63 (Uint63.of_Z z)
  | Zneg _ => PrimFloat.opp (PrimFloat.of_uint63 (Uint63.of_Z (- z)))
  end.

(** [DBL_MAX] and [DBL_MIN]. *)
Definition DBL_MAX : float := 0x1.fffffffffffffp+1023%float.
Definition DBL_MIN : float := 0x1p-1022%float.

(** IEEE binary64 ([scalar_t = double]).  The device [exp] is not part of
    the sources and is a parameter. *)
Definition double_scalar (device_exp : float -> float) : Scalar float := {|
  s_of_int := float_of_int;
  s_add := PrimFloat.add;
  s_mul := PrimFloat.mul;
  s_div := PrimFloat.div;
  s_lt := PrimFloat.ltb;
  s_abs := PrimFloat.abs;
  s_min := fmin;
  s_max := fmax;
  s_exp := device_exp;
  n_limits_max := DBL_MAX;
  n_limits_min := DBL_MIN
|}.

(** The one fact about the device [exp] that the underflow case needs:
    below [-746] the value [e^x] is under [2^-1075], half the smallest
    subnormal, so a binary64 [exp] returns zero there.  Elsewhere the
    device function is left as it is. *)
Definition exp_underflow (device_exp : float -> float) : float -> float :=
  fun x => if PrimFloat.ltb x (-746)%float then 0%float else device_exp x.

(** A buffer holding the elements of a list; reads elsewhere give [dflt]. *)
Definition buffer_of_list {scalar_t : Type} (dflt : scalar_t)
  (l : list scalar_t) : buffer scalar_t :=
  fun i => if i <? 0 then dflt else nth (Z.to_nat i) l dflt.

(** ** The operator as the specification words it *)

Section Specification.

Context {scalar_t : Type} `{Scalar scalar_t}.

(** [safe_exp(x)]: [exp(x)] clamped against [0, max-representable]. *)
Definition safe_exp (x : scalar_t) : scalar_t :=
  clamp (s_exp x) zero n_limits_max.

(** Steps 1 and 2: the sum of the [safe_exp] of the window's cells, clamped
    into [min-representable, max-representable]. *)
Definition weight_sum (xs : list scalar_t) : scalar_t :=
  clamp (fold_left (fun acc x => s_add acc (safe_exp x)) xs zero)
        n_limits_min n_limits_max.

(** Step 3, first half: [safe_exp] over the window sum, clamped. *)
Definition normalized_weight (ws x : scalar_t) : scalar_t :=
  clamp (s_div (safe_exp x) ws) zero n_limits_max.

(** Step 3, second half: the clamped contribution of one cell. *)
Definition weighted_value (ws x : scalar_t) : scalar_t :=
  clamp (s_mul x (normalized_weight ws x)) zero n_limits_max.

(** Steps 1-4 on the values [xs] of a window's valid cells. *)
Definition softpool (xs : list scalar_t) : scalar_t :=
  let ws := weight_sum xs in
  fold_left
    (fun acc x => clamp (s_add acc (weighted_value ws x)) zero n_limits_max)
    xs zero.

(** The gradient one output cell sends to a cell of value [x] of its
    window: the output gradient times the normalised weight, clamped. *)
Definition weighted_gradient (ws g x : scalar_t) : scalar_t :=
  clamp (s_mul g (normalized_weight ws x)) zero n_limits_max.

End Specification.

(** The valid coordinates of a window along one axis: the candidates
    [po * stride + off - kernel/2], [off] in [0, kernel), minus those that
    are negative or at least [extent]. *)
Definition window_axis (po stride kernel extent : Z) : list Z :=
  filter (fun x => negb ((x >=? extent) || (x <? 0)))
         (map (fun off => po * stride + off - kernel ÷ 2) (range kernel)).

(** Flat offsets, from the tensor base, of the valid cells of the window of
    output cell [(n, c, pd)] in a [batch x channel x dim] tensor. *)
Definition window_1d (channels dim kernel_d stride_d n c pd : Z) : list Z :=
  map (fun d => (n * channels + c) * dim + d)
      (window_axis pd stride_d kernel_d dim).

(** Offsets, from the base of a [height x width] slice, of the valid cells
    of the window of [(ph, pw)], rows first. *)
Definition window_offsets_2d (height width kernel_h kernel_w stride_h stride_w
                              ph pw : Z) : list Z :=
  flat_map
    (fun y => map (fun x => y * width + x)
                  (window_axis pw stride_w kernel_w width))
    (window_axis ph stride_h kernel_h height).

(** Flat offsets of the valid cells of the window of output cell
    [(n, c, ph, pw)] in a [batch x channel x height x width] tensor. *)
Definition window_2d (channels height width kernel_h kernel_w stride_h stride_w
                      n c ph pw : Z) : list Z :=
  map (fun o => (n * channels + c) * height * width + o)
      (window_offsets_2d height width kernel_h kernel_w stride_h stride_w
         ph pw).

(** Offsets, from the base of a slice, that the 3D kernels compute for the
    valid coordinates of the window of [(pd, ph, pw)]: the expression
    [d_offset*height + y_offset*width + x_offset] of the source. *)
Definition visited_offsets_3d (depth height width kernel_d kernel_h kernel_w
                               stride_d stride_h stride_w pd ph pw : Z)
  : list Z :=
  flat_map
    (fun d =>
       flat_map
         (fun y => map (fun x => d * height + y * width + x)
                       (window_axis pw stride_w kernel_w width))
         (window_axis ph stride_h kernel_h height))
    (window_axis pd stride_d kernel_d depth).



(** ** The input gradient as the specification words it *)



Section GradientSpecification.

Context {scalar_t : Type} `{Scalar scalar_t}.

Definition sum_list (l : list scalar_t) : scalar_t := fold_right s_add zero l.



(** A sequence of atomic adds [(offset, addend)] applied to a buffer. *)
Definition scatter (q : buffer scalar_t) (adds : list (Z * scalar_t))
  : buffer scalar_t :=
  fold_left (fun q a => atomicAdd q (fst a) (snd a)) adds q.

(** The adds of one backward thread over the slice offsets [L]. *)
Definition thread_adds (p : buffer scalar_t) (g : scalar_t) (offset0 : Z)
  (L : list Z) : list (Z * scalar_t) :=
  map (fun off =>
         (offset0 + off, weighted_gradient (weight_sum (map p L)) g (p off)))
      L.

End GradientSpecification.

(** ** The steps of the two passes *)

Section Steps.

Context {scalar_t : Type} `{Scalar scalar_t}.

(** Step (A.) at slice offset [off]. *)
Definition pass1_step (p : buffer scalar_t) (off : Z) (mask_sum : scalar_t)
  : scalar_t :=
  s_add mask_sum (clamp (s_exp (p off)) zero n_limits_max).

(** Steps (C.)-(F.) of a forward kernel at slice offset [off]. *)
Definition forward_update (p : buffer scalar_t) (mask_sum : scalar_t)
  (index off : Z) (output_data : buffer scalar_t) : buffer scalar_t :=
  let mask := s_exp (p off) in
  let mask := clamp mask zero n_limits_max in
  let mask := s_div mask mask_sum in
  let mask := clamp mask zero n_limits_max in
  let weighted_inp := s_mul (p off) mask in
  let weighted_inp := clamp weighted_inp zero n_limits_max in
  let output_data :=
    store output_data index (s_add (output_data index) weighted_inp) in
  store output_data index (clamp (output_data index) zero n_limits_max).

(** Steps (C.)-(E.) of a backward kernel at slice offset [off], and the
    atomic add into the gradient slice that starts at [offset0]. *)
Definition backward_update (p : buffer scalar_t) (mask_sum : scalar_t)
  (diff_output_index : scalar_t) (offset0 off : Z)
  (diff_input : buffer scalar_t) : buffer scalar_t :=
  let mask := s_exp (p off) in
  let mask := clamp mask zero n_limits_max in
  let mask := s_div mask mask_sum in
  let mask := clamp mask zero n_limits_max in
  let weighted_grad := s_mul diff_output_index mask in
  let weighted_grad := clamp weighted_grad zero n_limits_max in
  atomicAdd diff_input (offset0 + off) weighted_grad.

End Steps.

(** ** The softmax average *)



(** ** The launch configuration *)

(** [#define THREADS_PER_BLOCK 1024] *)
Definition THREADS_PER_BLOCK : Z := 1024.

(** [GET_BLOCKS] *)
Definition GET_BLOCKS (N : Z) : Z :=
  let optimal_block_num := (N + THREADS_PER_BLOCK - 1) ÷ THREADS_PER_BLOCK in
  let max_block_num := 65000 in
  Z.min optimal_block_num max_block_num.

(** The loop [for (int i = start; i < n; i += step)] of
    [CUDA_1D_KERNEL_LOOP], as the list of the values [i] takes.  With
    [step >= 1] and [start >= 0] the loop makes at most [n] rounds, which
    is the fuel [thread_indices] gives it. *)
Fixpoint grid_stride_from (fuel : nat) (i step n : Z) : list Z :=
  match fuel with
  | O => []
  | S fuel' =>
      if i <? n then i :: grid_stride_from fuel' (i + step) step n else []
  end.

(** The indices thread [threadIdx] of block [blockIdx] visits:
    [i = blockIdx.x * blockDim.x + threadIdx.x; i < n;
     i += blockDim.x * gridDim.x]. *)
Definition thread_indices (gridDim blockDim blockIdx threadIdx n : Z)
  : list Z :=
  grid_stride_from (Z.to_nat n) (blockIdx * blockDim + threadIdx)
    (blockDim * gridDim) n.

(** The indices of a whole launch [<<<gridDim, blockDim>>>], block after
    block and thread after thread. *)
Definition grid_indices (gridDim blockDim n : Z) : list Z :=
  flat_map
    (fun blockIdx =>
       flat_map (fun threadIdx =>
                   thread_indices gridDim blockDim blockIdx threadIdx n)
         (range blockDim))
    (range gridDim).

(** * Properties *)

(** ** Loops *)

Lemma in_range (n i : Z) : In i (range n) <-> 0 <= i < n.
Proof.
  unfold range. rewrite in_map_iff. split.
  - intros [k [<- Hk]]. apply in_seq in Hk. lia.
  - intros Hi. exists (Z.to_nat i). split; [lia|]. apply in_seq. lia.
Qed.

Lemma in_bounds_true (index nthreads : Z) :
  0 <= index < nthreads -> (0 <=? index) && (index <? nthreads) = true.
Proof.
  intros Hi. apply andb_true_iff. split; [apply Z.leb_le|apply Z.ltb_lt]; lia.
Qed.

Lemma NoDup_range (n : Z) : NoDup (range n).
Proof.
  unfold range. apply NoDup_map_NoDup_ForallPairs; [|apply seq_NoDup].
  intros a b _ _ Hab. lia.
Qed.

Lemma fold_left_skip {A S : Type} (c : A -> bool) (g : A -> S -> S)
  (l : list A) (s : S) :
  fold_left (fun acc i => if c i then acc else g i acc) l s =
  fold_left (fun acc i => g i acc) (filter (fun i => negb (c i)) l) s.
Proof.
  revert s. induction l as [|a l IH]; intros s; simpl; [reflexivity|].
  destruct (c a); simpl; apply IH.
Qed.

Lemma fold_left_map {A B S : Type} (f : A -> B) (g : S -> B -> S)
  (l : list A) (s : S) :
  fold_left g (map f l) s = fold_left (fun acc a => g acc (f a)) l s.
Proof.
  revert s. induction l as [|a l IH]; intros s; simpl; [reflexivity|apply IH].
Qed.

Lemma filter_map_swap {A B : Type} (f : A -> B) (p : B -> bool) (l : list A) :
  filter p (map f l) = map f (filter (fun a => p (f a)) l).
Proof.
  induction l as [|a l IH]; simpl; [reflexivity|].
  destruct (p (f a)); simpl; rewrite IH; reflexivity.
Qed.

Lemma fold_left_flat_map {A B S : Type} (f : A -> list B) (g : S -> B -> S)
  (l : list A) (s : S) :
  fold_left g (flat_map f l) s =
  fold_left (fun acc a => fold_left g (f a) acc) l s.
Proof.
  revert s. induction l as [|a l IH]; intros s; simpl; [reflexivity|].
  rewrite fold_left_app. apply IH.
Qed.

Lemma fold_left_ext_in {A S : Type} (g g' : S -> A -> S) (l : list A) (s : S) :
  (forall acc a, In a l -> g acc a = g' acc a) ->
  fold_left g l s = fold_left g' l s.
Proof.
  revert s. induction l as [|a l IH]; intros s Hg; simpl; [reflexivity|].
  rewrite Hg by (left; reflexivity). apply IH.
  intros acc b Hb. apply Hg. right. exact Hb.
Qed.

(** A loop whose candidates are filtered by [continue] is a fold over the
    valid window coordinates. *)
Lemma for_loop_window {S : Type} (po stride kernel extent : Z)
  (g : Z -> S -> S) (s : S) :
  for_loop kernel
    (fun id acc =>
       let x_offset := po * stride + id - kernel ÷ 2 in
       if (x_offset >=? extent) || (x_offset <? 0) then acc
       else g x_offset acc) s =
  fold_left (fun acc x => g x acc) (window_axis po stride kernel extent) s.
Proof.
  unfold for_loop, window_axis. cbv zeta.
  rewrite (fold_left_skip
             (fun id => (po * stride + id - kernel ÷ 2 >=? extent)
                        || (po * stride + id - kernel ÷ 2 <? 0))
             (fun id acc => g (po * stride + id - kernel ÷ 2) acc)).
  rewrite filter_map_swap, fold_left_map. reflexivity.
Qed.


(** Rewrite with a loop equation after exposing the steps it names. *)
Ltac rewrite_loop E :=
  let Hloop := fresh "Hloop" in
  pose proof E as Hloop;
  unfold pass1_step, forward_update, backward_update in Hloop;
  cbv zeta in Hloop; rewrite Hloop; clear Hloop.

(** ** Cells of a buffer under the loops *)

Section Cells.

Context {scalar_t : Type} `{Scalar scalar_t}.

Lemma store_same (p : buffer scalar_t) (i : Z) (v : scalar_t) :
  store p i v i = v.
Proof. unfold store. rewrite Z.eqb_refl. reflexivity. Qed.

Lemma store_other (p : buffer scalar_t) (i j : Z) (v : scalar_t) :
  j <> i -> store p i v j = p j.
Proof. unfold store. intros Hj. apply Z.eqb_neq in Hj. rewrite Hj. reflexivity. Qed.

(** A loop whose every iteration rewrites cell [index] from its previous
    value, and nothing else, folds that rewriting over the cell. *)
Lemma fold_cell {A : Type} (B : A -> buffer scalar_t -> buffer scalar_t)
  (f : A -> scalar_t -> scalar_t) (index : Z) (l : list A) :
  (forall a out j, j <> index -> B a out j = out j) ->
  (forall a out, B a out index = f a (out index)) ->
  forall out,
    (forall j, j <> index -> fold_left (fun o a => B a o) l out j = out j) /\
    fold_left (fun o a => B a o) l out index =
    fold_left (fun acc a => f a acc) l (out index).
Proof.
  intros Hother Hsame. induction l as [|a l IH]; intros out; simpl.
  - split; reflexivity.
  - destruct (IH (B a out)) as [IHo IHs]. split.
    + intros j Hj. rewrite IHo by exact Hj. apply Hother. exact Hj.
    + rewrite IHs, Hsame. reflexivity.
Qed.

(** The thread loop: when the body of [index] writes cell [index] only, with
    a value that ignores the buffer, the kernel leaves that value there. *)
Lemma kernel_loop_cell (body : Z -> buffer scalar_t -> buffer scalar_t)
  (v : Z -> scalar_t) :
  (forall i out j, j <> i -> body i out j = out j) ->
  (forall i out, body i out i = v i) ->
  forall nthreads out index,
    CUDA_1D_KERNEL_LOOP nthreads body out index =
    if (0 <=? index) && (index <? nthreads) then v index else out index.
Proof.
  intros Hother Hsame nthreads out index.
  unfold CUDA_1D_KERNEL_LOOP, for_loop.
  assert (Hl : forall l o,
             NoDup l ->
             fold_left (fun acc i => body i acc) l o index =
             if in_dec Z.eq_dec index l then v index else o index).
  { induction l as [|a l IH]; intros o Hnd; simpl; [reflexivity|].
    inversion Hnd as [|? ? Hna Hnd']; subst.
    rewrite IH by exact Hnd'.
    destruct (Z.eq_dec a index) as [->|Hne].
    - destruct (in_dec Z.eq_dec index l) as [Hin|_]; [contradiction|].
      apply Hsame.
    - destruct (in_dec Z.eq_dec index l); [reflexivity|].
      apply Hother. congruence. }
  rewrite Hl by apply NoDup_range.
  destruct (in_dec Z.eq_dec index (range nthreads)) as [Hin|Hnin].
  - apply in_range in Hin.
    replace ((0 <=? index) && (index <? nthreads)) with true; [reflexivity|].
    symmetry. apply andb_true_iff. split; [apply Z.leb_le|apply Z.ltb_lt]; lia.
  - replace ((0 <=? index) && (index <? nthreads)) with false; [reflexivity|].
    symmetry. apply andb_false_iff.
    destruct (Z.leb_spec 0 index); [|left; reflexivity].
    destruct (Z.ltb_spec index nthreads); [|right; reflexivity].
    exfalso. apply Hnin. apply in_range. lia.
Qed.

(** Nested window loops visit the slice offsets rows first. *)
Lemma for_loop_window_2d {S : Type}
  (height width kernel_h kernel_w stride_h stride_w ph pw : Z)
  (g : Z -> S -> S) (s : S) :
  for_loop kernel_h
    (fun iy acc =>
       let y_offset := ph * stride_h + iy - kernel_h ÷ 2 in
       if (y_offset >=? height) || (y_offset <? 0) then acc else
       for_loop kernel_w
         (fun ix acc =>
            let x_offset := pw * stride_w + ix - kernel_w ÷ 2 in
            if (x_offset >=? width) || (x_offset <? 0) then acc else
            g (y_offset * width + x_offset) acc) acc) s =
  fold_left (fun acc o => g o acc)
    (window_offsets_2d height width kernel_h kernel_w stride_h stride_w ph pw)
    s.
Proof.
  rewrite (for_loop_window ph stride_h kernel_h height
             (fun y acc =>
                for_loop kernel_w
                  (fun ix acc =>
                     let x_offset := pw * stride_w + ix - kernel_w ÷ 2 in
                     if (x_offset >=? width) || (x_offset <? 0) then acc else
                     g (y * width + x_offset) acc) acc)).
  unfold window_offsets_2d. rewrite fold_left_flat_map.
  apply fold_left_ext_in. intros acc y _.
  rewrite (for_loop_window pw stride_w kernel_w width
             (fun x acc => g (y * width + x) acc)).
  rewrite fold_left_map. reflexivity.
Qed.

Lemma for_loop_window_3d {S : Type}
  (depth height width kernel_d kernel_h kernel_w : Z)
  (stride_d stride_h stride_w pd ph pw : Z)
  (g : Z -> S -> S) (s : S) :
  for_loop kernel_d
    (fun id acc =>
       let d_offset := pd * stride_d + id - kernel_d ÷ 2 in
       if (d_offset >=? depth) || (d_offset <? 0) then acc else
       for_loop kernel_h
         (fun iy acc =>
            let y_offset := ph * stride_h + iy - kernel_h ÷ 2 in
            if (y_offset >=? height) || (y_offset <? 0) then acc else
            for_loop kernel_w
              (fun ix acc =>
                 let x_offset := pw * stride_w + ix - kernel_w ÷ 2 in
                 if (x_offset >=? width) || (x_offset <? 0) then acc else
                 g (d_offset * height + y_offset * width + x_offset) acc)
              acc) acc) s =
  fold_left (fun acc o => g o acc)
    (visited_offsets_3d depth height width kernel_d kernel_h kernel_w
       stride_d stride_h stride_w pd ph pw) s.
Proof.
  rewrite (for_loop_window pd stride_d kernel_d depth
             (fun d acc =>
                for_loop kernel_h
                  (fun iy acc =>
                     let y_offset := ph * stride_h + iy - kernel_h ÷ 2 in
                     if (y_offset >=? height) || (y_offset <? 0) then acc else
                     for_loop kernel_w
                       (fun ix acc =>
                          let x_offset := pw * stride_w + ix - kernel_w ÷ 2 in
                          if (x_offset >=? width) || (x_offset <? 0) then acc
                          else g (d * height + y_offset * width + x_offset)
                                 acc) acc) acc)).
  unfold visited_offsets_3d. rewrite fold_left_flat_map.
  apply fold_left_ext_in. intros acc d _.
  rewrite (for_loop_window ph stride_h kernel_h height
             (fun y acc =>
                for_loop kernel_w
                  (fun ix acc =>
                     let x_offset := pw * stride_w + ix - kernel_w ÷ 2 in
                     if (x_offset >=? width) || (x_offset <? 0) then acc
                     else g (d * height + y * width + x_offset) acc) acc)).
  rewrite fold_left_flat_map.
  apply fold_left_ext_in. intros acc' y _.
  rewrite (for_loop_window pw stride_w kernel_w width
             (fun x acc => g (d * height + y * width + x) acc)).
  rewrite fold_left_map. reflexivity.
Qed.

(** *** The forward thread bodies, cell by cell *)

(** The two passes of a forward thread over the slice offsets [L]. *)
Lemma forward_passes (p : buffer scalar_t) (L : list Z) (index : Z)
  (out : buffer scalar_t) :
  let ws := clamp (fold_left (fun acc o => pass1_step p o acc) L zero)
                  n_limits_min n_limits_max in
  let res := fold_left (fun o off => forward_update p ws index off o) L
               (store out index zero) in
  (forall j, j <> index -> res j = out j) /\
  res index = softpool (map p L).
Proof.
  intros ws res.
  destruct (fold_cell
              (fun off o => forward_update p ws index off o)
              (fun off acc =>
                 clamp (s_add acc (weighted_value ws (p off))) zero
                       n_limits_max)
              index L) with (out := store out index zero) as [Ho Hs].
  - intros a o j Hj. unfold forward_update. cbv zeta.
    rewrite !store_other by exact Hj. reflexivity.
  - intros a o. unfold forward_update. cbv zeta.
    rewrite !store_same. reflexivity.
  - split.
    + intros j Hj. unfold res. rewrite Ho by exact Hj.
      apply store_other. exact Hj.
    + unfold res. rewrite Hs, store_same. unfold softpool. cbv zeta.
      rewrite fold_left_map.
      assert (Hws : weight_sum (map p L) = ws).
      { unfold weight_sum, ws. rewrite fold_left_map. reflexivity. }
      rewrite Hws. reflexivity.
Qed.

Lemma SoftPool1dForward_thread_spec (bottom_input : buffer scalar_t)
  (batches channels dim kernel_d stride_d index : Z)
  (output_data : buffer scalar_t) :
  let pd := Z.rem index (dim ÷ stride_d) in
  let c := Z.rem (index ÷ (dim ÷ stride_d)) channels in
  let n := index ÷ (dim ÷ stride_d) ÷ channels in
  (forall j, j <> index ->
     SoftPool1dForward_thread bottom_input batches channels dim kernel_d
       stride_d index output_data j = output_data j) /\
  SoftPool1dForward_thread bottom_input batches channels dim kernel_d
    stride_d index output_data index =
  softpool (map bottom_input (window_1d channels dim kernel_d stride_d n c pd)).
Proof.
  intros pd c n. unfold SoftPool1dForward_thread. cbv zeta.
  fold pd c n.
  set (p := ptr_add bottom_input ((n * channels + c) * dim)).
  rewrite_loop (for_loop_window pd stride_d kernel_d dim (pass1_step p)).
  set (ws := clamp _ n_limits_min n_limits_max).
  rewrite_loop (for_loop_window pd stride_d kernel_d dim
             (fun d out => forward_update p ws index d out)).
  unfold window_1d. rewrite map_map.
  apply (forward_passes p (window_axis pd stride_d kernel_d dim) index
           output_data).
Qed.

Lemma SoftPool2dForward_thread_spec (bottom_input : buffer scalar_t)
  (batches channels height width kernel_h kernel_w stride_h stride_w : Z)
  (index : Z) (output_data : buffer scalar_t) :
  let pooled_height := height ÷ stride_h in
  let pooled_width := width ÷ stride_w in
  let pw := Z.rem index pooled_width in
  let ph := Z.rem (index ÷ pooled_width) pooled_height in
  let c := Z.rem (index ÷ pooled_width ÷ pooled_height) channels in
  let n := index ÷ pooled_width ÷ pooled_height ÷ channels in
  (forall j, j <> index ->
     SoftPool2dForward_thread bottom_input batches channels height width
       kernel_h kernel_w stride_h stride_w index output_data j =
     output_data j) /\
  SoftPool2dForward_thread bottom_input batches channels height width
    kernel_h kernel_w stride_h stride_w index output_data index =
  softpool (map bottom_input
              (window_2d channels height width kernel_h kernel_w
                 stride_h stride_w n c ph pw)).
Proof.
  intros pooled_height pooled_width pw ph c n.
  unfold SoftPool2dForward_thread. cbv zeta.
  fold pooled_height pooled_width. fold pw ph c n.
  set (p := ptr_add bottom_input ((n * channels + c) * height * width)).
  rewrite_loop (for_loop_window_2d height width kernel_h kernel_w stride_h stride_w
             ph pw (pass1_step p)).
  set (ws := clamp _ n_limits_min n_limits_max).
  rewrite_loop (for_loop_window_2d height width kernel_h kernel_w stride_h stride_w
             ph pw (fun o out => forward_update p ws index o out)).
  unfold window_2d. rewrite map_map.
  apply (forward_passes p _ index output_data).
Qed.

Lemma SoftPool3dForward_thread_spec (bottom_input : buffer scalar_t)
  (batches channels depth height width : Z)
  (kernel_d kernel_h kernel_w stride_d stride_h stride_w : Z)
  (index : Z) (output_data : buffer scalar_t) :
  let pooled_depth := depth ÷ stride_d in
  let pooled_height := height ÷ stride_h in
  let pooled_width := width ÷ stride_w in
  let pw := Z.rem index pooled_width in
  let ph := Z.rem (index ÷ pooled_width) pooled_height in
  let pd := Z.rem (index ÷ pooled_width ÷ pooled_height) pooled_depth in
  let c :=
    Z.rem (index ÷ pooled_width ÷ pooled_height ÷ pooled_depth) channels in
  let n := index ÷ pooled_width ÷ pooled_height ÷ pooled_depth ÷ channels in
  (forall j, j <> index ->
     SoftPool3dForward_thread bottom_input batches channels depth height width
       kernel_d kernel_h kernel_w stride_d stride_h stride_w
       index output_data j = output_data j) /\
  SoftPool3dForward_thread bottom_input batches channels depth height width
    kernel_d kernel_h kernel_w stride_d stride_h stride_w
    index output_data index =
  softpool
    (map (ptr_add bottom_input ((n * channels + c) * depth * height * width))
       (visited_offsets_3d depth height width kernel_d kernel_h kernel_w
          stride_d stride_h stride_w pd ph pw)).
Proof.
  intros pooled_depth pooled_height pooled_width pw ph pd c n.
  unfold SoftPool3dForward_thread. cbv zeta.
  fold pooled_depth pooled_height pooled_width. fold pw ph pd c n.
  set (p := ptr_add bottom_input
              ((n * channels + c) * depth * height * width)).
  rewrite_loop (for_loop_window_3d depth height width kernel_d kernel_h kernel_w
             stride_d stride_h stride_w pd ph pw (pass1_step p)).
  set (ws := clamp _ n_limits_min n_limits_max).
  rewrite_loop (for_loop_window_3d depth height width kernel_d kernel_h kernel_w
             stride_d stride_h stride_w pd ph pw
             (fun o out => forward_update p ws index o out)).
  apply (forward_passes p _ index output_data).
Qed.

End Cells.

(** ** Flat indices and coordinates *)






(** ** The forward kernels, cell by cell *)

Section ForwardCells.

Context {scalar_t : Type} `{Scalar scalar_t}.

(** The value a kernel leaves in cell [index] is the one its thread of
    that index computes, from any starting buffer. *)
Lemma SoftPool1dForward_at (nthreads : Z) (bottom_input : buffer scalar_t)
  (batches channels dim kernel_d stride_d : Z) (output_data : buffer scalar_t)
  (index : Z) :
  0 <= index < nthreads ->
  SoftPool1dForward nthreads bottom_input batches channels dim kernel_d
    stride_d output_data index =
  softpool
    (map bottom_input
       (window_1d channels dim kernel_d stride_d
          (index ÷ (dim ÷ stride_d) ÷ channels)
          (Z.rem (index ÷ (dim ÷ stride_d)) channels)
          (Z.rem index (dim ÷ stride_d)))).
Proof.
  intros Hi. unfold SoftPool1dForward.
  rewrite (kernel_loop_cell _
             (fun index =>
                SoftPool1dForward_thread bottom_input batches channels dim
                  kernel_d stride_d index (fun _ => zero) index)).
  - rewrite in_bounds_true by exact Hi.
    apply (SoftPool1dForward_thread_spec bottom_input batches channels dim
             kernel_d stride_d index (fun _ => zero)).
  - intros i out j Hj.
    apply (SoftPool1dForward_thread_spec bottom_input batches channels dim
             kernel_d stride_d i out). exact Hj.
  - intros i out.
    destruct (SoftPool1dForward_thread_spec bottom_input batches channels dim
                kernel_d stride_d i out) as [_ ->].
    destruct (SoftPool1dForward_thread_spec bottom_input batches channels dim
                kernel_d stride_d i (fun _ => zero)) as [_ ->].
    reflexivity.
Qed.

Lemma SoftPool2dForward_at (nthreads : Z) (bottom_input : buffer scalar_t)
  (batches channels height width kernel_h kernel_w stride_h stride_w : Z)
  (output_data : buffer scalar_t) (index : Z) :
  0 <= index < nthreads ->
  SoftPool2dForward nthreads bottom_input batches channels height width
    kernel_h kernel_w stride_h stride_w output_data index =
  softpool
    (map bottom_input
       (window_2d channels height width kernel_h kernel_w stride_h stride_w
          (index ÷ (width ÷ stride_w) ÷ (height ÷ stride_h) ÷ channels)
          (Z.rem (index ÷ (width ÷ stride_w) ÷ (height ÷ stride_h)) channels)
          (Z.rem (index ÷ (width ÷ stride_w)) (height ÷ stride_h))
          (Z.rem index (width ÷ stride_w)))).
Proof.
  intros Hi. unfold SoftPool2dForward.
  rewrite (kernel_loop_cell _
             (fun index =>
                SoftPool2dForward_thread bottom_input batches channels
                  height width kernel_h kernel_w stride_h stride_w
                  index (fun _ => zero) index)).
  - rewrite in_bounds_true by exact Hi.
    apply (SoftPool2dForward_thread_spec bottom_input batches channels
             height width kernel_h kernel_w stride_h stride_w index
             (fun _ => zero)).
  - intros i out j Hj.
    apply (SoftPool2dForward_thread_spec bottom_input batches channels
             height width kernel_h kernel_w stride_h stride_w i out).
    exact Hj.
  - intros i out.
    destruct (SoftPool2dForward_thread_spec bottom_input batches channels
                height width kernel_h kernel_w stride_h stride_w i out)
      as [_ ->].
    destruct (SoftPool2dForward_thread_spec bottom_input batches channels
                height width kernel_h kernel_w stride_h stride_w i
                (fun _ => zero)) as [_ ->].
    reflexivity.
Qed.

Lemma SoftPool3dForward_at (nthreads : Z) (bottom_input : buffer scalar_t)
  (batches channels depth height width : Z)
  (kernel_d kernel_h kernel_w stride_d stride_h stride_w : Z)
  (output_data : buffer scalar_t) (index : Z) :
  0 <= index < nthreads ->
  exists (p : buffer scalar_t) (L : list Z),
    SoftPool3dForward nthreads bottom_input batches channels depth height
      width kernel_d kernel_h kernel_w stride_d stride_h stride_w
      output_data index = softpool (map p L) /\
    forall out',
      SoftPool3dForward nthreads bottom_input batches channels depth height
        width kernel_d kernel_h kernel_w stride_d stride_h stride_w
        out' index = softpool (map p L).
Proof.
  intros Hi.
  destruct (SoftPool3dForward_thread_spec bottom_input batches channels
              depth height width kernel_d kernel_h kernel_w
              stride_d stride_h stride_w index (fun _ => zero)) as [_ Hs].
  cbv zeta in Hs.
  eexists. eexists.
  assert (Hall : forall out,
             SoftPool3dForward nthreads bottom_input batches channels depth
               height width kernel_d kernel_h kernel_w stride_d stride_h
               stride_w out index =
             SoftPool3dForward_thread bottom_input batches channels depth
               height width kernel_d kernel_h kernel_w stride_d stride_h
               stride_w index (fun _ => zero) index).
  { intros out. unfold SoftPool3dForward.
    rewrite (kernel_loop_cell _
               (fun index =>
                  SoftPool3dForward_thread bottom_input batches channels
                    depth height width kernel_d kernel_h kernel_w
                    stride_d stride_h stride_w index (fun _ => zero) index)).
    - rewrite in_bounds_true by exact Hi. reflexivity.
    - intros i o j Hj.
      apply (SoftPool3dForward_thread_spec bottom_input batches channels
               depth height width kernel_d kernel_h kernel_w
               stride_d stride_h stride_w i o).
      exact Hj.
    - intros i o.
      destruct (SoftPool3dForward_thread_spec bottom_input batches channels
                  depth height width kernel_d kernel_h kernel_w
                  stride_d stride_h stride_w i o) as [_ ->].
      destruct (SoftPool3dForward_thread_spec bottom_input batches channels
                  depth height width kernel_d kernel_h kernel_w
                  stride_d stride_h stride_w i (fun _ => zero)) as [_ ->].
      reflexivity. }
  split; [|intros out']; rewrite Hall; exact Hs.
Qed.



End ForwardCells.

(** ** Windows at the border *)


(** ** Exact real arithmetic *)

(** Expose the real operations behind the fields of the instance. *)
Ltac real_ops :=
  cbn [s_add s_mul s_div s_abs s_min s_max s_exp s_lt s_of_int
       n_limits_max n_limits_min R_scalar].

Section RealArithmetic.

Variables upper lower : R.

#[local] Abbreviation ops := (R_scalar upper lower).

#[local] Hint Extern 0 (Scalar R) =>
  exact (R_scalar upper lower) : typeclass_instances.

Lemma R_zero : @zero R ops = 0%R.
Proof. reflexivity. Qed.

Lemma R_sgn_pos (x : R) : (0 < x)%R -> @sgn R ops x = 1%R.
Proof.
  intros Hx. unfold sgn. simpl.
  destruct (Rlt_dec 0 x) as [_|Hn]; [|contradiction].
  destruct (Rlt_dec x 0) as [Hlt|_]; [lra|]. reflexivity.
Qed.

Lemma R_sgn_neg (x : R) : (x < 0)%R -> @sgn R ops x = (-1)%R.
Proof.
  intros Hx. unfold sgn. simpl.
  destruct (Rlt_dec 0 x) as [Hlt|_]; [lra|].
  destruct (Rlt_dec x 0) as [_|Hn]; [|contradiction]. reflexivity.
Qed.

Lemma R_sgn_zero : @sgn R ops 0%R = 0%R.
Proof.
  unfold sgn. simpl.
  destruct (Rlt_dec 0 0) as [Hlt|_]; [lra|]. reflexivity.
Qed.

Lemma R_sgn_abs (x : R) : (Rabs x * @sgn R ops x = x)%R.
Proof.
  destruct (Rtotal_order x 0) as [Hx | [ -> | Hx ] ].
  - rewrite R_sgn_neg, Rabs_left by exact Hx. lra.
  - rewrite R_sgn_zero. lra.
  - rewrite R_sgn_pos, Rabs_right by lra. lra.
Qed.

Lemma R_sgn_cases (x : R) :
  @sgn R ops x = (-1)%R \/ @sgn R ops x = 0%R \/ @sgn R ops x = 1%R.
Proof.
  destruct (Rtotal_order x 0) as [Hx | [ -> | Hx ] ].
  - left. apply R_sgn_neg. exact Hx.
  - right. left. apply R_sgn_zero.
  - right. right. apply R_sgn_pos. exact Hx.
Qed.

Lemma R_clamp_eq (n lo up : R) :
  @clamp R ops n lo up = (Rmax lo (Rmin (Rabs n) up) * @sgn R ops n)%R.
Proof. reflexivity. Qed.

(** [clamp] sends zero to zero, whatever the bounds. *)
Lemma R_clamp_zero (lo up : R) : @clamp R ops 0%R lo up = 0%R.
Proof. rewrite R_clamp_eq, R_sgn_zero. lra. Qed.

(** A value whose magnitude is within the bounds passes unchanged. *)
Lemma R_clamp_id (n lo up : R) :
  (lo <= Rabs n <= up)%R -> @clamp R ops n lo up = n.
Proof.
  intros [Hlo Hup]. rewrite R_clamp_eq.
  rewrite Rmin_left by exact Hup. rewrite Rmax_right by exact Hlo.
  apply R_sgn_abs.
Qed.

Lemma R_clamp_id0 (n up : R) :
  (Rabs n <= up)%R -> @clamp R ops n (@zero R ops) up = n.
Proof.
  intros Hup. apply R_clamp_id. rewrite R_zero. split; [apply Rabs_pos|exact Hup].
Qed.

(** The magnitude of a clamped value is at most the upper bound. *)
Lemma R_clamp_abs_le (n lo up : R) :
  (lo <= up)%R -> (0 <= up)%R -> (Rabs (@clamp R ops n lo up) <= up)%R.
Proof.
  intros Hlo Hup. rewrite R_clamp_eq, Rabs_mult.
  assert (Hm : (Rmax lo (Rmin (Rabs n) up) <= up)%R).
  { apply Rmax_lub; [exact Hlo|apply Rmin_r]. }
  assert (Hm' : (- up <= Rmax lo (Rmin (Rabs n) up))%R).
  { apply Rle_trans with (Rmin (Rabs n) up); [|apply Rmax_r].
    apply Rmin_glb; [pose proof (Rabs_pos n); lra|lra]. }
  assert (Ha : (Rabs (Rmax lo (Rmin (Rabs n) up)) <= up)%R).
  { apply Rabs_le. lra. }
  assert (Hs : (0 <= Rabs (@sgn R ops n) <= 1)%R).
  { split; [apply Rabs_pos|].
    destruct (R_sgn_cases n) as [ -> | [ -> | -> ] ];
      unfold Rabs; destruct (Rcase_abs _); lra. }
  pose proof (Rabs_pos (Rmax lo (Rmin (Rabs n) up))) as Hp.
  nra.
Qed.

(** A positive value is clamped against the bounds themselves. *)
Lemma R_clamp_pos (n lo up : R) :
  (0 < n)%R -> @clamp R ops n lo up = Rmax lo (Rmin n up).
Proof.
  intros Hn. rewrite R_clamp_eq, R_sgn_pos by exact Hn.
  rewrite Rabs_right by lra. lra.
Qed.

Lemma R_safe_exp (x : R) :
  (0 <= upper)%R -> @safe_exp R ops x = Rmin (exp x) upper.
Proof.
  intros Hup. unfold safe_exp.
  rewrite R_clamp_pos by apply exp_pos. simpl.
  apply Rmax_right. apply Rmin_glb; [left; apply exp_pos|exact Hup].
Qed.


End RealArithmetic.

(** ** Windows of equal values *)

Section UniformWindow.

Variables upper lower : R.

#[local] Abbreviation ops := (R_scalar upper lower).

#[local] Hint Extern 0 (Scalar R) =>
  exact (R_scalar upper lower) : typeclass_instances.


Lemma Rabs_scale_le (t v : R) : (0 <= t <= 1)%R -> (Rabs (t * v) <= Rabs v)%R.
Proof.
  intros Ht. rewrite Rabs_mult, (Rabs_right t) by lra.
  pose proof (Rabs_pos v). nra.
Qed.

Lemma R_pass1_uniform (v : R) (k : nat) (a : R) :
  fold_left (fun acc x => s_add acc (@safe_exp R ops x)) (repeat v k) a =
  (a + INR k * @safe_exp R ops v)%R.
Proof.
  revert a. induction k as [|k IH]; intros a.
  - simpl. lra.
  - change (repeat v (S k)) with (v :: repeat v k).
    cbn [fold_left]. rewrite IH, S_INR. real_ops. lra.
Qed.

(** With [k >= 1] cells of value [v], [|v| <= upper], and the sum
    [k * exp v] within the limits, no clamp engages: the window sum is
    [k * exp v], every weight is [1/k] and the pooled value is [v]. *)
Lemma R_softpool_uniform (v : R) (k : nat) :
  (1 <= upper)%R -> (Rabs v <= upper)%R -> (1 <= k)%nat ->
  (lower <= INR k * exp v <= upper)%R ->
  @weight_sum R ops (repeat v k) = (INR k * exp v)%R /\
  @normalized_weight R ops (@weight_sum R ops (repeat v k)) v = (1 / INR k)%R /\
  @softpool R ops (repeat v k) = v.
Proof.
  intros Hup Hv Hk [Hlo Hhi].
  assert (Hk1 : (1 <= INR k)%R) by (apply (le_INR 1); exact Hk).
  pose proof (exp_pos v) as He.
  assert (Hse : @safe_exp R ops v = exp v).
  { rewrite R_safe_exp by lra. apply Rmin_left. nra. }
  assert (Hws : @weight_sum R ops (repeat v k) = (INR k * exp v)%R).
  { unfold weight_sum. rewrite R_pass1_uniform, Hse, R_zero.
    rewrite R_clamp_pos by (real_ops; nra). real_ops.
    rewrite Rplus_0_l. rewrite Rmin_left by exact Hhi.
    apply Rmax_right. exact Hlo. }
  assert (Hr : (0 < / INR k <= 1)%R).
  { split; [apply Rinv_0_lt_compat; lra|].
    rewrite <- Rinv_1. apply Rinv_le_contravar; lra. }
  assert (Hnw : @normalized_weight R ops (INR k * exp v)%R v = (1 / INR k)%R).
  { unfold normalized_weight. rewrite Hse. real_ops.
    replace (exp v / (INR k * exp v))%R with (/ INR k)%R by (field; lra).
    rewrite (R_clamp_id0 upper lower).
    - lra.
    - rewrite Rabs_right by lra. lra. }
  split; [exact Hws|]. split; [rewrite Hws; exact Hnw|].
  unfold softpool. cbv zeta. rewrite Hws.
  assert (Hwv : @weighted_value R ops (INR k * exp v)%R v = (v * / INR k)%R).
  { unfold weighted_value. rewrite Hnw. real_ops.
    replace (v * (1 / INR k))%R with (v * / INR k)%R by (field; lra).
    apply (R_clamp_id0 upper lower).
    rewrite Rmult_comm.
    apply Rle_trans with (Rabs v); [apply Rabs_scale_le; lra|exact Hv]. }
  assert (Hfold : forall j i,
             (i + j <= k)%nat ->
             fold_left
               (fun acc x =>
                  @clamp R ops
                    (s_add acc (@weighted_value R ops (INR k * exp v)%R x))
                    (@zero R ops) n_limits_max)
               (repeat v j) (INR i * (v * / INR k))%R =
             (INR (i + j) * (v * / INR k))%R).
  { induction j as [|j IH]; intros i Hij.
    - simpl. rewrite Nat.add_0_r. reflexivity.
    - change (repeat v (S j)) with (v :: repeat v j).
      cbn [fold_left]. rewrite Hwv.
      replace (@clamp R ops
                 (s_add (INR i * (v * / INR k))%R (v * / INR k)%R)
                 (@zero R ops) n_limits_max)
        with (INR (S i) * (v * / INR k))%R.
      + rewrite IH by lia. f_equal. f_equal. lia.
      + symmetry. real_ops.
        replace (INR i * (v * / INR k) + v * / INR k)%R
          with (INR (S i) * (v * / INR k))%R by (rewrite S_INR; lra).
        apply (R_clamp_id0 upper lower).
        replace (INR (S i) * (v * / INR k))%R
          with ((INR (S i) * / INR k) * v)%R by lra.
        apply Rle_trans with (Rabs v); [|exact Hv].
        apply Rabs_scale_le.
        assert (Hi : (INR (S i) <= INR k)%R) by (apply le_INR; lia).
        assert (Hi0 : (0 <= INR (S i))%R) by apply pos_INR.
        split; [nra|].
        replace 1%R with (INR k * / INR k)%R by (field; lra). nra. }
  specialize (Hfold k 0%nat (Nat.le_refl _)).
  replace (INR 0 * (v * / INR k))%R with (@zero R ops) in Hfold
    by (unfold zero; real_ops; simpl INR; lra).
  rewrite Hfold. simpl Nat.add. field. lra.
Qed.

End UniformWindow.

(** ** The single-precision limits *)

Lemma Rabs_le_between (x a : R) : (Rabs x <= a)%R -> (- a <= x <= a)%R.
Proof. unfold Rabs. destruct (Rcase_abs x); lra. Qed.

Lemma FLT_limits : (0 < FLT_MIN < / 1000)%R /\ (1000 < FLT_MAX)%R.
Proof.
  unfold FLT_MIN, FLT_MAX. split; [split|].
  - apply Rinv_0_lt_compat. lra.
  - apply Rinv_lt_contravar; lra.
  - lra.
Qed.



Lemma R_clamp_id0_nonneg (upper lower n up : R) :
  (0 <= n <= up)%R ->
  @clamp R (R_scalar upper lower) n (@zero R (R_scalar upper lower)) up = n.
Proof.
  intros Hn. apply R_clamp_id0. rewrite Rabs_right by lra. lra.
Qed.

(** ** The constant [e] *)

Lemma exp_double (x : R) : exp (2 * x) = (exp x * exp x)%R.
Proof. replace (2 * x)%R with (x + x)%R by lra. apply exp_plus. Qed.

Lemma square_bounds (a l u l' u' : R) :
  (0 <= l)%R -> (l <= a <= u)%R -> (l' <= l * l)%R -> (u * u <= u')%R ->
  (l' <= a * a <= u')%R.
Proof. intros Hl Ha Hl' Hu'. split; nra. Qed.

(** [2.707522 <= e <= 2.72962], by seven squarings from
    [1 + x < exp x < 1 / (1 - x)] at [x = 1/128]. *)
Lemma exp_1_bounds : (2707522 / 1000000 <= exp 1 <= 2729620 / 1000000)%R.
Proof.
  assert (B0 : (1007812 / 1000000 <= exp (/ 128) <= 1007875 / 1000000)%R).
  { split.
    - pose proof (exp_ineq1 (/ 128)). lra.
    - pose proof (exp_ineq1 (- / 128)) as Hn. rewrite exp_Ropp in Hn.
      pose proof (exp_pos (/ 128)) as Hp.
      assert (Hn' : (127 / 128 < / exp (/ 128))%R) by lra.
      assert (Hm : (exp (/ 128) * (127 / 128) < 1)%R).
      { replace 1%R with (exp (/ 128) * / exp (/ 128))%R by (field; lra).
        apply Rmult_lt_compat_l; assumption. }
      lra. }
  assert (B1 : (1015685 / 1000000 <= exp (/ 64) <= 1015813 / 1000000)%R).
  { replace (/ 64)%R with (2 * / 128)%R by lra. rewrite exp_double.
    refine (square_bounds _ _ _ _ _ _ B0 _ _); lra. }
  assert (B2 : (1031616 / 1000000 <= exp (/ 32) <= 1031877 / 1000000)%R).
  { replace (/ 32)%R with (2 * / 64)%R by lra. rewrite exp_double.
    refine (square_bounds _ _ _ _ _ _ B1 _ _); lra. }
  assert (B3 : (1064231 / 1000000 <= exp (/ 16) <= 1064771 / 1000000)%R).
  { replace (/ 16)%R with (2 * / 32)%R by lra. rewrite exp_double.
    refine (square_bounds _ _ _ _ _ _ B2 _ _); lra. }
  assert (B4 : (1132587 / 1000000 <= exp (/ 8) <= 1133738 / 1000000)%R).
  { replace (/ 8)%R with (2 * / 16)%R by lra. rewrite exp_double.
    refine (square_bounds _ _ _ _ _ _ B3 _ _); lra. }
  assert (B5 : (1282753 / 1000000 <= exp (/ 4) <= 1285362 / 1000000)%R).
  { replace (/ 4)%R with (2 * / 8)%R by lra. rewrite exp_double.
    refine (square_bounds _ _ _ _ _ _ B4 _ _); lra. }
  assert (B6 : (1645455 / 1000000 <= exp (/ 2) <= 1652156 / 1000000)%R).
  { replace (/ 2)%R with (2 * / 4)%R by lra. rewrite exp_double.
    refine (square_bounds _ _ _ _ _ _ B5 _ _); lra. }
  replace 1%R with (2 * / 2)%R by lra. rewrite exp_double.
  refine (square_bounds _ _ _ _ _ _ B6 _ _); lra.
Qed.

(** ** The end-to-end scenario *)

(** The window [{1, 0}] pools to [e / (e + 1)]. *)
Lemma R_softpool_one_zero :
  @softpool R R_float [1%R; 0%R] = (exp 1 / (exp 1 + 1))%R.
Proof.
  destruct FLT_limits as [[Hmin0 Hmin1] Hmax].
  pose proof exp_1_bounds as He.
  assert (Hse1 : @safe_exp R R_float 1%R = exp 1).
  { unfold R_float. rewrite R_safe_exp by lra. apply Rmin_left. lra. }
  assert (Hse0 : @safe_exp R R_float 0%R = 1%R).
  { unfold R_float. rewrite R_safe_exp by lra. rewrite exp_0.
    apply Rmin_left. lra. }
  assert (Hws : @weight_sum R R_float [1%R; 0%R] = (exp 1 + 1)%R).
  { unfold weight_sum. cbn [fold_left]. rewrite Hse1, Hse0.
    unfold R_float. rewrite R_zero. real_ops.
    rewrite R_clamp_pos by lra.
    rewrite Rmin_left by lra. rewrite Rmax_right by lra. lra. }
  assert (Hq1 : (0 < exp 1 / (exp 1 + 1) < 1)%R).
  { split.
    - apply Rdiv_lt_0_compat; lra.
    - apply Rmult_lt_reg_r with (exp 1 + 1)%R; [lra|].
      unfold Rdiv. rewrite Rmult_assoc, Rinv_l by lra. lra. }
  assert (Hq0 : (0 < 1 / (exp 1 + 1) < 1)%R).
  { split.
    - apply Rdiv_lt_0_compat; lra.
    - apply Rmult_lt_reg_r with (exp 1 + 1)%R; [lra|].
      unfold Rdiv. rewrite Rmult_assoc, Rinv_l by lra. lra. }
  unfold softpool. cbv zeta. rewrite Hws. cbn [fold_left].
  unfold weighted_value, normalized_weight. rewrite Hse1, Hse0.
  unfold R_float. real_ops.
  rewrite (R_clamp_id0_nonneg _ _ (exp 1 / (exp 1 + 1))%R) by lra.
  rewrite (R_clamp_id0_nonneg _ _ (1 / (exp 1 + 1))%R) by lra.
  rewrite Rmult_1_l, Rmult_0_l.
  rewrite (R_clamp_id0_nonneg _ _ (exp 1 / (exp 1 + 1))%R) by lra.
  rewrite (R_clamp_id0_nonneg _ _ 0%R) by lra.
  rewrite R_zero, Rplus_0_l.
  rewrite (R_clamp_id0_nonneg _ _ (exp 1 / (exp 1 + 1))%R) by lra.
  rewrite Rplus_0_r.
  apply R_clamp_id0_nonneg. lra.
Qed.

(** ** The backward kernels as sequences of atomic adds *)

Section BackwardScatter.

Context {scalar_t : Type} `{Scalar scalar_t}.

Lemma backward_passes (p : buffer scalar_t) (g : scalar_t) (offset0 : Z)
  (L : list Z) (q : buffer scalar_t) :
  let ws := clamp (fold_left (fun acc o => pass1_step p o acc) L zero)
                  n_limits_min n_limits_max in
  fold_left (fun q off => backward_update p ws g offset0 off q) L q =
  scatter q (thread_adds p g offset0 L).
Proof.
  intros ws. unfold scatter, thread_adds. rewrite fold_left_map.
  assert (Hws : weight_sum (map p L) = ws).
  { unfold weight_sum, ws. rewrite fold_left_map. reflexivity. }
  rewrite Hws. reflexivity.
Qed.

Lemma for_loop_ext {S : Type} (n : Z) (body body' : Z -> S -> S) (s : S) :
  (forall i acc, body i acc = body' i acc) ->
  for_loop n body s = for_loop n body' s.
Proof.
  intros Hb. unfold for_loop. apply fold_left_ext_in.
  intros acc i _. apply Hb.
Qed.

(** The backward kernels add the loop counter to a precomputed base. *)
Lemma for_loop_window_base {S : Type} (po stride kernel extent : Z)
  (g : Z -> S -> S) (s : S) :
  for_loop kernel
    (fun id acc =>
       let x_offset := po * stride - kernel ÷ 2 + id in
       if (x_offset >=? extent) || (x_offset <? 0) then acc
       else g x_offset acc) s =
  fold_left (fun acc x => g x acc) (window_axis po stride kernel extent) s.
Proof.
  rewrite <- for_loop_window. apply for_loop_ext.
  intros id acc. cbv zeta.
  replace (po * stride - kernel ÷ 2 + id)
    with (po * stride + id - kernel ÷ 2) by lia.
  reflexivity.
Qed.

Lemma for_loop_window_2d_base {S : Type}
  (height width kernel_h kernel_w stride_h stride_w ph pw : Z)
  (g : Z -> S -> S) (s : S) :
  for_loop kernel_h
    (fun iy acc =>
       let y_offset := ph * stride_h - kernel_h ÷ 2 + iy in
       if (y_offset >=? height) || (y_offset <? 0) then acc else
       for_loop kernel_w
         (fun ix acc =>
            let x_offset := pw * stride_w - kernel_w ÷ 2 + ix in
            if (x_offset >=? width) || (x_offset <? 0) then acc else
            g (y_offset * width + x_offset) acc) acc) s =
  fold_left (fun acc o => g o acc)
    (window_offsets_2d height width kernel_h kernel_w stride_h stride_w ph pw)
    s.
Proof.
  rewrite <- for_loop_window_2d. apply for_loop_ext.
  intros iy acc. cbv zeta.
  replace (ph * stride_h - kernel_h ÷ 2 + iy)
    with (ph * stride_h + iy - kernel_h ÷ 2) by lia.
  destruct ((ph * stride_h + iy - kernel_h ÷ 2 >=? height)
            || (ph * stride_h + iy - kernel_h ÷ 2 <? 0)); [reflexivity|].
  apply for_loop_ext. intros ix acc'.
  replace (pw * stride_w - kernel_w ÷ 2 + ix)
    with (pw * stride_w + ix - kernel_w ÷ 2) by lia.
  reflexivity.
Qed.

Lemma SoftPool1dBackward_thread_spec (diff_output data_input : buffer scalar_t)
  (batches channels dim kernel_d stride_d index : Z)
  (diff_input : buffer scalar_t) :
  let pd := Z.rem index (dim ÷ stride_d) in
  let c := Z.rem (index ÷ (dim ÷ stride_d)) channels in
  let n := index ÷ (dim ÷ stride_d) ÷ channels in
  SoftPool1dBackward_thread diff_output data_input batches channels dim
    kernel_d stride_d index diff_input =
  scatter diff_input
    (thread_adds (ptr_add data_input ((n * channels + c) * dim))
       (diff_output index) ((n * channels + c) * dim)
       (window_axis pd stride_d kernel_d dim)).
Proof.
  intros pd c n. unfold SoftPool1dBackward_thread. cbv zeta.
  fold pd c n.
  set (p := ptr_add data_input ((n * channels + c) * dim)).
  rewrite_loop (for_loop_window_base pd stride_d kernel_d dim (pass1_step p)).
  set (ws := clamp _ n_limits_min n_limits_max).
  rewrite_loop (for_loop_window_base pd stride_d kernel_d dim
                  (fun d q => backward_update p ws (diff_output index)
                                ((n * channels + c) * dim) d q)).
  apply (backward_passes p (diff_output index) ((n * channels + c) * dim)
           (window_axis pd stride_d kernel_d dim) diff_input).
Qed.

Lemma SoftPool2dBackward_thread_spec (diff_output data_input : buffer scalar_t)
  (batches channels height width kernel_h kernel_w stride_h stride_w : Z)
  (index : Z) (diff_input : buffer scalar_t) :
  let pooled_height := height ÷ stride_h in
  let pooled_width := width ÷ stride_w in
  let pw := Z.rem index pooled_width in
  let ph := Z.rem (index ÷ pooled_width) pooled_height in
  let c := Z.rem (index ÷ pooled_width ÷ pooled_height) channels in
  let n := index ÷ pooled_width ÷ pooled_height ÷ channels in
  SoftPool2dBackward_thread diff_output data_input batches channels
    height width kernel_h kernel_w stride_h stride_w index diff_input =
  scatter diff_input
    (thread_adds
       (ptr_add data_input ((n * channels + c) * height * width))
       (diff_output index) ((n * channels + c) * height * width)
       (window_offsets_2d height width kernel_h kernel_w stride_h stride_w
          ph pw)).
Proof.
  intros pooled_height pooled_width pw ph c n.
  unfold SoftPool2dBackward_thread. cbv zeta.
  fold pooled_height pooled_width. fold pw ph c n.
  set (p := ptr_add data_input ((n * channels + c) * height * width)).
  rewrite_loop (for_loop_window_2d_base height width kernel_h kernel_w
                  stride_h stride_w ph pw (pass1_step p)).
  set (ws := clamp _ n_limits_min n_limits_max).
  rewrite_loop (for_loop_window_2d_base height width kernel_h kernel_w
                  stride_h stride_w ph pw
                  (fun o q => backward_update p ws (diff_output index)
                                ((n * channels + c) * height * width) o q)).
  apply (backward_passes p (diff_output index)
           ((n * channels + c) * height * width) _ diff_input).
Qed.

(** The kernel is the scatter of the adds of all its threads. *)
Lemma scatter_app (q : buffer scalar_t) (a b : list (Z * scalar_t)) :
  scatter q (a ++ b) = scatter (scatter q a) b.
Proof. unfold scatter. apply fold_left_app. Qed.

Lemma kernel_loop_scatter (adds : Z -> list (Z * scalar_t))
  (body : Z -> buffer scalar_t -> buffer scalar_t) :
  (forall i q, body i q = scatter q (adds i)) ->
  forall nthreads q,
    CUDA_1D_KERNEL_LOOP nthreads body q =
    scatter q (flat_map adds (range nthreads)).
Proof.
  intros Hb nthreads q. unfold CUDA_1D_KERNEL_LOOP, for_loop.
  generalize (range nthreads). intros l. revert q.
  induction l as [|i l IH]; intros q; simpl; [reflexivity|].
  rewrite scatter_app, <- Hb. apply IH.
Qed.

End BackwardScatter.

(** ** Sums of real addends *)

Section RealSums.

Variables upper lower : R.

#[local] Abbreviation ops := (R_scalar upper lower).

#[local] Hint Extern 0 (Scalar R) =>
  exact (R_scalar upper lower) : typeclass_instances.

Lemma R_sum_cons (x : R) (l : list R) :
  @sum_list R ops (x :: l) = (x + @sum_list R ops l)%R.
Proof. reflexivity. Qed.

Lemma R_sum_nil : @sum_list R ops [] = 0%R.
Proof. reflexivity. Qed.





Lemma R_sum_zero {A : Type} (f : A -> R) (l : list A) :
  (forall a, In a l -> f a = 0%R) -> @sum_list R ops (map f l) = 0%R.
Proof.
  induction l as [|a l IH]; intros Hf; cbn [map]; [reflexivity|].
  rewrite R_sum_cons, Hf by (left; reflexivity).
  rewrite IH; [lra|]. intros b Hb. apply Hf. right. exact Hb.
Qed.



(** The value of a cell after a sequence of atomic adds. *)
Lemma R_scatter_at (q : buffer R) (adds : list (Z * R)) (j : Z) :
  @scatter R ops q adds j =
  (q j +
   @sum_list R ops
     (map (fun a => if fst a =? j then snd a else 0%R) adds))%R.
Proof.
  revert q. induction adds as [|a adds IH]; intros q.
  - cbn [map]. rewrite R_sum_nil. unfold scatter. simpl. lra.
  - change (@scatter R ops q (a :: adds) j)
      with (@scatter R ops (atomicAdd q (fst a) (snd a)) adds j).
    rewrite IH. cbn [map]. rewrite R_sum_cons.
    unfold atomicAdd, store. rewrite (Z.eqb_sym (fst a) j).
    destruct (j =? fst a) eqn:E.
    + apply Z.eqb_eq in E. subst j. real_ops. lra.
    + lra.
Qed.


End RealSums.

(** ** The backward kernels in exact arithmetic *)

Section BackwardReal.

Variables upper lower : R.

#[local] Abbreviation ops := (R_scalar upper lower).

#[local] Hint Extern 0 (Scalar R) =>
  exact (R_scalar upper lower) : typeclass_instances.






End BackwardReal.

Section BackwardCells.

Variables upper lower : R.

#[local] Abbreviation ops := (R_scalar upper lower).

#[local] Hint Extern 0 (Scalar R) =>
  exact (R_scalar upper lower) : typeclass_instances.








End BackwardCells.

(** ** Order of the atomic adds *)

Section Schedules.

Variables upper lower : R.

#[local] Abbreviation ops := (R_scalar upper lower).

#[local] Hint Extern 0 (Scalar R) =>
  exact (R_scalar upper lower) : typeclass_instances.

Lemma R_sum_permutation (l l' : list R) :
  Permutation l l' -> @sum_list R ops l = @sum_list R ops l'.
Proof.
  induction 1 as [|x l l' _ IH|x y l|l l' l'' _ IH1 _ IH2].
  - reflexivity.
  - rewrite !R_sum_cons, IH. reflexivity.
  - rewrite !R_sum_cons. lra.
  - rewrite IH1. exact IH2.
Qed.

(** In exact arithmetic the gradient buffer does not depend on the order
    in which the atomic adds of the threads land. *)
Lemma R_scatter_permutation (q : buffer R) (adds adds' : list (Z * R)) (j : Z) :
  Permutation adds adds' ->
  @scatter R ops q adds j = @scatter R ops q adds' j.
Proof.
  intros Hp. rewrite !R_scatter_at. f_equal.
  apply R_sum_permutation. apply Permutation_map. exact Hp.
Qed.

(** In particular the threads of the 1D backward kernel may run in any
    order. *)
Lemma R_backward_1d_any_order (order : list Z) (nthreads : Z)
  (diff_output data_input diff_input : buffer R)
  (batches channels dim kernel_d stride_d j : Z) :
  Permutation order (range nthreads) ->
  fold_left
    (fun q index =>
       @SoftPool1dBackward_thread R ops diff_output data_input batches
         channels dim kernel_d stride_d index q) order diff_input j =
  @SoftPool1dBackward R ops nthreads diff_output data_input batches channels
    dim kernel_d stride_d diff_input j.
Proof.
  intros Hp.
  set (adds := fun index =>
         let pd := Z.rem index (dim ÷ stride_d) in
         let c' := Z.rem (index ÷ (dim ÷ stride_d)) channels in
         let n' := index ÷ (dim ÷ stride_d) ÷ channels in
         @thread_adds R ops
           (ptr_add data_input ((n' * channels + c') * dim))
           (diff_output index) ((n' * channels + c') * dim)
           (window_axis pd stride_d kernel_d dim)).
  assert (Hfold : forall l q,
             fold_left
               (fun q index =>
                  @SoftPool1dBackward_thread R ops diff_output data_input
                    batches channels dim kernel_d stride_d index q) l q =
             @scatter R ops q (flat_map adds l)).
  { induction l as [|i l IH]; intros q; [reflexivity|].
    cbn [fold_left flat_map]. rewrite scatter_app, IH.
    rewrite SoftPool1dBackward_thread_spec. reflexivity. }
  rewrite Hfold. unfold SoftPool1dBackward, CUDA_1D_KERNEL_LOOP, for_loop.
  rewrite (Hfold (range nthreads)).
  apply R_scatter_permutation. apply Permutation_flat_map. exact Hp.
Qed.

End Schedules.

(** * The claims *)





(** C3.  A [2 x 2 x 2] slice, kernel and stride 1 on every axis, so that
    the window of output cell [(d, y, x)] is the input cell [(d, y, x)],
    at row-major offset [(d*2 + y)*2 + x].  The window of output cell
    [(1,1,1)] (index 7) is input cell 7, yet the forward kernel's value
    there does not change when input cell 7 does (it reads offset
    [1*2 + 1*2 + 1 = 5]), and the backward kernel never adds into gradient
    cells 6 and 7. *)
Theorem offset_3d_is_not_row_major {scalar_t : Type} `{Scalar scalar_t}
  (bottom_input output_data diff_output diff_input : buffer scalar_t)
  (v : scalar_t) :
  SoftPool3dForwardLauncher (store bottom_input 7 v) 1 1 2 2 2 1 1 1 1 1 1
    output_data 7 =
  SoftPool3dForwardLauncher bottom_input 1 1 2 2 2 1 1 1 1 1 1 output_data 7
  /\
  SoftPool3dForwardLauncher bottom_input 1 1 2 2 2 1 1 1 1 1 1 output_data 7 =
  softpool [bottom_input 5]
  /\
  SoftPool3dBackwardLauncher diff_output bottom_input 1 1 2 2 2 1 1 1 1 1 1
    diff_input 6 = diff_input 6
  /\
  SoftPool3dBackwardLauncher diff_output bottom_input 1 1 2 2 2 1 1 1 1 1 1
    diff_input 7 = diff_input 7.
Proof. repeat split. Qed.

(** C4.  One [1 x 4 x 2] slice, kernel 1 and stride [(1, 2, 1)]: the
    pooled extents are [1 x 2 x 2], so output cell 2 is [(0, 1, 0)] and
    its window is input cell [(0, 2, 0)], at offset 4.  The forward kernel
    reads that cell; the backward kernel, whose pooled height is
    [width/stride_h = 1], never adds into gradient cells 4 and 5 and adds
    the gradients of output cells 2 and 3 at offsets 8 and 9 instead, past
    the end of the 8-cell slice. *)
Theorem backward_3d_pooled_height_from_width {scalar_t : Type}
  `{Scalar scalar_t}
  (bottom_input output_data diff_output diff_input : buffer scalar_t) :
  SoftPool3dForwardLauncher bottom_input 1 1 1 4 2 1 1 1 1 2 1 output_data 2 =
  softpool [bottom_input 4]
  /\
  SoftPool3dBackwardLauncher diff_output bottom_input 1 1 1 4 2 1 1 1 1 2 1
    diff_input 4 = diff_input 4
  /\
  SoftPool3dBackwardLauncher diff_output bottom_input 1 1 1 4 2 1 1 1 1 2 1
    diff_input 5 = diff_input 5
  /\
  SoftPool3dBackwardLauncher diff_output bottom_input 1 1 1 4 2 1 1 1 1 2 1
    diff_input 8 =
  s_add (diff_input 8)
    (weighted_gradient (weight_sum [bottom_input 8]) (diff_output 2)
       (bottom_input 8)).
Proof. repeat split. Qed.




(** C6.  [clamp] multiplies the bounded magnitude by [sgn n], and
    [sgn 0 = 0]: a window sum of zero stays zero through step (B.), in
    binary64 as in exact arithmetic.  With one cell holding [-1000], whose
    exponential underflows to zero, the clamped window sum is 0, the
    quotient of step (D.) is [0/0], a NaN, and the kernel stores 0 where
    the pooled value of the one-cell window would be [-1000]. *)
Theorem weight_sum_clamp_keeps_zero (device_exp : float -> float)
  (output_data : buffer float) :
  let double := double_scalar (exp_underflow device_exp) in
  @clamp float double 0%float DBL_MIN DBL_MAX = 0%float /\
  @weight_sum float double [(-1000)%float] = 0%float /\
  PrimFloat.is_nan
    (@s_div float double (@safe_exp float double (-1000)%float)
       (@weight_sum float double [(-1000)%float])) = true /\
  @SoftPool1dForwardLauncher float double (fun _ => (-1000)%float) 1 1 1 1 1
    output_data 0 = 0%float /\
  (forall upper lower : R,
     @clamp R (R_scalar upper lower) 0%R lower upper = 0%R).
Proof.
  intros double. repeat split; try (vm_compute; reflexivity).
  intros upper lower. apply R_clamp_zero.
Qed.

(** C7, as the code has it.  On the input [0, 1, 0, 1] with kernel 2 and
    stride 2 the windows are centred: candidate [-1] of output cell 0 is
    skipped and its window is the single cell 0, whose value is 0; the
    window of output cell 1 is cells 1 and 2, values [1, 0].  The output
    is [0, e/(e+1)], that is about [0, 0.731]. *)
Theorem end_to_end_1d_scenario :
  let output :=
    @SoftPool1dForwardLauncher R R_float
      (buffer_of_list 0%R [0%R; 1%R; 0%R; 1%R]) 1 1 4 2 2 (fun _ => 0%R) in
  window_1d 1 4 2 2 0 0 0 = [0] /\
  window_1d 1 4 2 2 0 0 1 = [1; 2] /\
  output 0 = 0%R /\
  output 1 = (exp 1 / (exp 1 + 1))%R /\
  (Rabs (output 1%Z - 731 / 1000) < 1 / 1000)%R.
Proof.
  intros output.
  assert (H0 : output 0 = 0%R).
  { unfold output, SoftPool1dForwardLauncher. cbv zeta.
    rewrite (@SoftPool1dForward_at R R_float) by (vm_compute; split; congruence).
    change (window_1d 1 4 2 2 (0 ÷ (4 ÷ 2) ÷ 1) (Z.rem (0 ÷ (4 ÷ 2)) 1)
              (Z.rem 0 (4 ÷ 2))) with [0].
    change (map (buffer_of_list 0%R [0%R; 1%R; 0%R; 1%R]) [0])
      with (repeat 0%R 1).
    destruct FLT_limits as [[Hmin0 Hmin1] Hmax].
    apply (R_softpool_uniform FLT_MAX FLT_MIN 0%R 1).
    - lra.
    - rewrite Rabs_R0. lra.
    - lia.
    - rewrite exp_0. simpl INR. lra. }
  assert (H1 : output 1 = (exp 1 / (exp 1 + 1))%R).
  { unfold output, SoftPool1dForwardLauncher. cbv zeta.
    rewrite (@SoftPool1dForward_at R R_float) by (vm_compute; split; congruence).
    change (window_1d 1 4 2 2 (1 ÷ (4 ÷ 2) ÷ 1) (Z.rem (1 ÷ (4 ÷ 2)) 1)
              (Z.rem 1 (4 ÷ 2))) with [1; 2].
    change (map (buffer_of_list 0%R [0%R; 1%R; 0%R; 1%R]) [1; 2])
      with [1%R; 0%R].
    apply R_softpool_one_zero. }
  repeat split; try assumption.
  rewrite H1. pose proof exp_1_bounds as He.
  assert (Hq : (730 / 1000 < exp 1 / (exp 1 + 1) < 732 / 1000)%R).
  { split.
    - apply Rmult_lt_reg_r with (exp 1 + 1)%R; [lra|].
      unfold Rdiv at 2. rewrite Rmult_assoc, Rinv_l by lra. lra.
    - apply Rmult_lt_reg_r with (exp 1 + 1)%R; [lra|].
      unfold Rdiv at 1. rewrite Rmult_assoc, Rinv_l by lra. lra. }
  apply Rabs_def1; lra.
Qed.

(** C7, counterexample.  The first output cell is 0, more than 0.7 away
    from the 0.731 the scenario expects. *)
Lemma end_to_end_first_cell_is_zero :
  let output :=
    @SoftPool1dForwardLauncher R R_float
      (buffer_of_list 0%R [0%R; 1%R; 0%R; 1%R]) 1 1 4 2 2 (fun _ => 0%R) in
  ~ ((Rabs (output 0%Z - 731 / 1000) <= 1 / 10)%R /\
     (Rabs (output 1%Z - 731 / 1000) <= 1 / 10)%R).
Proof.
  intros output [H0 _].
  assert (Hz : output 0 = 0%R).
  { unfold output, SoftPool1dForwardLauncher. cbv zeta.
    rewrite (@SoftPool1dForward_at R R_float) by (vm_compute; split; congruence).
    change (window_1d 1 4 2 2 (0 ÷ (4 ÷ 2) ÷ 1) (Z.rem (0 ÷ (4 ÷ 2)) 1)
              (Z.rem 0 (4 ÷ 2))) with [0].
    change (map (buffer_of_list 0%R [0%R; 1%R; 0%R; 1%R]) [0])
      with (repeat 0%R 1).
    destruct FLT_limits as [[Hmin0 Hmin1] Hmax].
    apply (R_softpool_uniform FLT_MAX FLT_MIN 0%R 1).
    - lra.
    - rewrite Rabs_R0. lra.
    - lia.
    - rewrite exp_0. simpl INR. lra. }
  rewrite Hz in H0. apply Rabs_le_between in H0. lra.
Qed.






(** C10.  The forward kernels zero each output cell before accumulating
    into it: two runs that differ only in the initial contents of the
    output buffer leave the same value in every output cell
    [0 <= index < nthreads], in one, two and three dimensions. *)
Theorem forward_ignores_initial_output {scalar_t : Type} `{Scalar scalar_t}
  (nthreads : Z) (bottom_input out1 out2 : buffer scalar_t)
  (batches channels depth height width : Z)
  (kernel_d kernel_h kernel_w stride_d stride_h stride_w : Z) (index : Z) :
  0 <= index < nthreads ->
  SoftPool1dForward nthreads bottom_input batches channels width kernel_w
    stride_w out1 index =
  SoftPool1dForward nthreads bottom_input batches channels width kernel_w
    stride_w out2 index
  /\
  SoftPool2dForward nthreads bottom_input batches channels height width
    kernel_h kernel_w stride_h stride_w out1 index =
  SoftPool2dForward nthreads bottom_input batches channels height width
    kernel_h kernel_w stride_h stride_w out2 index
  /\
  SoftPool3dForward nthreads bottom_input batches channels depth height width
    kernel_d kernel_h kernel_w stride_d stride_h stride_w out1 index =
  SoftPool3dForward nthreads bottom_input batches channels depth height width
    kernel_d kernel_h kernel_w stride_d stride_h stride_w out2 index.
Proof.
  intros Hi. repeat split.
  - rewrite !SoftPool1dForward_at by exact Hi. reflexivity.
  - rewrite !SoftPool2dForward_at by exact Hi. reflexivity.
  - destruct (SoftPool3dForward_at nthreads bottom_input batches channels
                depth height width kernel_d kernel_h kernel_w
                stride_d stride_h stride_w out1 index Hi)
      as [p [L [_ Hall]]].
    rewrite !Hall. reflexivity.
Qed.

(** C10 with output buffers that start at 0 and at 5. *)
Lemma forward_ignores_initial_output_witness :
  @SoftPool1dForward R R_float 2 (fun _ => 1%R) 1 1 4 2 2 (fun _ => 0%R) 1 =
  @SoftPool1dForward R R_float 2 (fun _ => 1%R) 1 1 4 2 2 (fun _ => 5%R) 1
  /\
  @SoftPool2dForward R R_float 2 (fun _ => 1%R) 1 1 4 4 2 2 2 2
    (fun _ => 0%R) 1 =
  @SoftPool2dForward R R_float 2 (fun _ => 1%R) 1 1 4 4 2 2 2 2
    (fun _ => 5%R) 1
  /\
  @SoftPool3dForward R R_float 2 (fun _ => 1%R) 1 1 4 4 4 2 2 2 2 2 2
    (fun _ => 0%R) 1 =
  @SoftPool3dForward R R_float 2 (fun _ => 1%R) 1 1 4 4 4 2 2 2 2 2 2
    (fun _ => 5%R) 1.
Proof.
  apply (@forward_ignores_initial_output R R_float 2 (fun _ => 1%R)
           (fun _ => 0%R) (fun _ => 5%R) 1 1 4 4 4 2 2 2 2 2 2 1).
  lia.
Defined.

(** * Further properties of the code *)

(** ** The launch configuration *)



Lemma in_grid_stride_from (fuel : nat) (i step n x : Z) :
  0 < step ->
  In x (grid_stride_from fuel i step n) <->
  exists k : nat, (k < fuel)%nat /\ x = i + Z.of_nat k * step /\ x < n.
Proof.
  intros Hstep. revert i. induction fuel as [|fuel IH]; intros i.
  - simpl. split; [intros []|intros [k [Hk _]]; lia].
  - cbn [grid_stride_from]. destruct (Z.ltb_spec i n) as [Hlt|Hge].
    + cbn [In]. rewrite IH. split.
      * intros [<-|[k [Hk [-> Hx]]]].
        -- exists 0%nat. repeat split; lia.
        -- exists (S k). repeat split; lia.
      * intros [k [Hk [-> Hx]]]. destruct k as [|k].
        -- left. lia.
        -- right. exists k. repeat split; lia.
    + split; [intros []|].
      intros [k [_ [-> Hx]]]. nia.
Qed.

Lemma NoDup_grid_stride_from (fuel : nat) (i step n : Z) :
  0 < step -> NoDup (grid_stride_from fuel i step n).
Proof.
  intros Hstep. revert i. induction fuel as [|fuel IH]; intros i.
  - constructor.
  - cbn [grid_stride_from]. destruct (i <? n); [|constructor].
    constructor; [|apply IH].
    intros Hin. apply in_grid_stride_from in Hin; [|exact Hstep].
    destruct Hin as [k [_ [Hx _]]]. nia.
Qed.

(** A thread visits the indices below [n] that are its start plus a
    multiple of the grid size: the fuel never runs out. *)
Lemma in_thread_indices (gridDim blockDim blockIdx threadIdx n x : Z) :
  0 < gridDim -> 0 < blockDim ->
  0 <= blockIdx -> 0 <= threadIdx ->
  In x (thread_indices gridDim blockDim blockIdx threadIdx n) <->
  blockIdx * blockDim + threadIdx <= x < n /\
  (x - (blockIdx * blockDim + threadIdx)) mod (blockDim * gridDim) = 0.
Proof.
  intros Hg Hb Hbi Hti. unfold thread_indices.
  assert (Hstep : 0 < blockDim * gridDim) by nia.
  assert (Hstart : 0 <= blockIdx * blockDim + threadIdx) by nia.
  rewrite in_grid_stride_from by exact Hstep. split.
  - intros [k [Hk [-> Hx]]]. split; [nia|].
    replace (blockIdx * blockDim + threadIdx
             + Z.of_nat k * (blockDim * gridDim)
             - (blockIdx * blockDim + threadIdx))
      with (Z.of_nat k * (blockDim * gridDim)) by lia.
    apply Z.mod_mul. lia.
  - intros [[Hlo Hhi] Hmod].
    apply Z.mod_divide in Hmod; [|lia]. destruct Hmod as [q Hq].
    assert (Hq0 : 0 <= q) by nia.
    exists (Z.to_nat q). repeat split; [nia|nia|exact Hhi].
Qed.

Lemma NoDup_flat_map_disjoint {A B : Type} (f : A -> list B) (l : list A) :
  NoDup l ->
  (forall a, In a l -> NoDup (f a)) ->
  (forall a a' x, In a l -> In a' l -> In x (f a) -> In x (f a') -> a = a') ->
  NoDup (flat_map f l).
Proof.
  induction l as [|a l IH]; intros Hnd Hf Hdis; [constructor|].
  inversion Hnd as [|? ? Hna Hnd']; subst. cbn [flat_map].
  apply NoDup_app.
  - apply Hf. left. reflexivity.
  - apply IH; [exact Hnd'| |].
    + intros b Hb. apply Hf. right. exact Hb.
    + intros b b' x Hb Hb'. apply Hdis; right; assumption.
  - intros x Hx Hx'. apply in_flat_map in Hx'. destruct Hx' as [b [Hb Hxb]].
    assert (a = b) by (apply (Hdis a b x); [left; reflexivity|right; exact Hb
                                            |exact Hx|exact Hxb]).
    subst b. contradiction.
Qed.

Lemma grid_indices_range (gridDim blockDim n : Z) :
  0 < gridDim -> 0 < blockDim ->
  Permutation (grid_indices gridDim blockDim n) (range n).
Proof.
  intros Hg Hb.
  assert (Hstep : 0 < blockDim * gridDim) by nia.
  apply NoDup_Permutation; [|apply NoDup_range|].
  - unfold grid_indices. apply NoDup_flat_map_disjoint.
    + apply NoDup_range.
    + intros b Hbin. apply in_range in Hbin.
      apply NoDup_flat_map_disjoint.
      * apply NoDup_range.
      * intros t _. apply NoDup_grid_stride_from. exact Hstep.
      * intros t t' x Ht Ht' Hx Hx'.
        apply in_range in Ht. apply in_range in Ht'.
        apply in_thread_indices in Hx; try lia.
        apply in_thread_indices in Hx'; try lia.
        destruct Hx as [_ Hx]. destruct Hx' as [_ Hx'].
        apply Z.mod_divide in Hx; [|lia].
        apply Z.mod_divide in Hx'; [|lia].
        destruct Hx as [q Hq]. destruct Hx' as [q' Hq'].
        assert (Hd : t' - t = (q - q') * (blockDim * gridDim)) by lia.
        assert (Hqq : q = q').
        { destruct (Z.lt_trichotomy q q') as [Hl|[He|Hl]]; [|exact He|].
          - assert (q - q' <= -1) by lia. nia.
          - assert (1 <= q - q') by lia. nia. }
        subst q'. lia.
    + intros b b' x Hbin Hbin' Hx Hx'.
      apply in_range in Hbin. apply in_range in Hbin'.
      apply in_flat_map in Hx. destruct Hx as [t [Ht Hx]].
      apply in_flat_map in Hx'. destruct Hx' as [t' [Ht' Hx']].
      apply in_range in Ht. apply in_range in Ht'.
      apply in_thread_indices in Hx; try lia.
      apply in_thread_indices in Hx'; try lia.
      destruct Hx as [_ Hx]. destruct Hx' as [_ Hx'].
      apply Z.mod_divide in Hx; [|lia].
      apply Z.mod_divide in Hx'; [|lia].
      destruct Hx as [q Hq]. destruct Hx' as [q' Hq'].
      assert (Hd : (b' * blockDim + t') - (b * blockDim + t) =
                   (q - q') * (blockDim * gridDim)) by lia.
      assert (Hs : 0 <= b * blockDim + t < blockDim * gridDim) by nia.
      assert (Hs' : 0 <= b' * blockDim + t' < blockDim * gridDim) by nia.
      assert (Hqq : q = q').
      { destruct (Z.lt_trichotomy q q') as [Hl|[He|Hl]]; [|exact He|].
        - assert (q - q' <= -1) by lia. nia.
        - assert (1 <= q - q') by lia. nia. }
      subst q'.
      assert (Heq : b * blockDim + t = b' * blockDim + t') by lia.
      destruct (Z.lt_trichotomy b b') as [Hl|[He|Hl]]; [|exact He|].
      * assert (b + 1 <= b') by lia. nia.
      * assert (b' + 1 <= b) by lia. nia.
  - intros x. rewrite in_range. unfold grid_indices. split.
    + intros Hx. apply in_flat_map in Hx. destruct Hx as [b [Hbin Hx]].
      apply in_flat_map in Hx. destruct Hx as [t [Ht Hx]].
      apply in_range in Hbin. apply in_range in Ht.
      apply in_thread_indices in Hx; [|lia|lia|lia|lia].
      destruct Hx as [[Hlo Hhi] _]. nia.
    + intros Hx.
      set (s := x mod (blockDim * gridDim)).
      assert (Hs : 0 <= s < blockDim * gridDim)
        by (apply Z.mod_pos_bound; lia).
      apply in_flat_map. exists (s / blockDim). split.
      * apply in_range. split; [apply Z.div_pos; lia|].
        apply Z.div_lt_upper_bound; lia.
      * apply in_flat_map. exists (s mod blockDim). split.
        -- apply in_range. apply Z.mod_pos_bound. lia.
        -- apply in_thread_indices; try lia.
           ++ apply Z.div_pos; lia.
           ++ apply Z.mod_pos_bound. lia.
           ++ assert (Hsb : s / blockDim * blockDim + s mod blockDim = s).
              { pose proof (Z.div_mod s blockDim ltac:(lia)). lia. }
              rewrite Hsb. split.
              ** split; [|lia]. unfold s. apply Z.mod_le; lia.
              ** unfold s. rewrite Zminus_mod, Z.mod_mod by lia.
                 rewrite Z.sub_diag. apply Z.mod_0_l. lia.
Qed.



(** ** The order of the threads *)

Section ThreadOrder.

Context {scalar_t : Type} `{Scalar scalar_t}.

(** Threads that each write their own cell, with a value that ignores the
    buffer, may run in any order. *)
Lemma own_cells_any_order (body : Z -> buffer scalar_t -> buffer scalar_t) :
  (forall i out j, j <> i -> body i out j = out j) ->
  (forall i out out', body i out i = body i out' i) ->
  forall order nthreads out j,
    Permutation order (range nthreads) ->
    fold_left (fun acc i => body i acc) order out j =
    CUDA_1D_KERNEL_LOOP nthreads body out j.
Proof.
  intros Hother Hsame order nthreads out j Hp.
  assert (Hl : forall l o,
             NoDup l ->
             fold_left (fun acc i => body i acc) l o j =
             if in_dec Z.eq_dec j l then body j (fun _ => zero) j else o j).
  { induction l as [|a l IH]; intros o Hnd; simpl; [reflexivity|].
    inversion Hnd as [|? ? Hna Hnd']; subst.
    rewrite IH by exact Hnd'.
    destruct (Z.eq_dec a j) as [->|Hne].
    - destruct (in_dec Z.eq_dec j l) as [Hin|_]; [contradiction|].
      apply Hsame.
    - destruct (in_dec Z.eq_dec j l); [reflexivity|].
      apply Hother. congruence. }
  unfold CUDA_1D_KERNEL_LOOP, for_loop.
  rewrite (Hl order)
    by (apply (Permutation_NoDup (Permutation_sym Hp)); apply NoDup_range).
  rewrite (Hl (range nthreads)) by apply NoDup_range.
  destruct (in_dec Z.eq_dec j order) as [Hin|Hnin];
    destruct (in_dec Z.eq_dec j (range nthreads)) as [Hin'|Hnin'];
    try reflexivity; exfalso.
  - apply Hnin'. apply (Permutation_in _ Hp). exact Hin.
  - apply Hnin. apply (Permutation_in _ (Permutation_sym Hp)). exact Hin'.
Qed.

End ThreadOrder.

(** X3.  The forward kernels of a launch with at least one block and one
    thread per block: whatever the order in which the indices of the
    grid-stride loops are worked, the output buffer is the one the kernel
    model leaves, in one, two and three dimensions and for every element
    type. *)
Theorem forward_launch_any_thread_order {scalar_t : Type} `{Scalar scalar_t}
  (gridDim blockDim nthreads : Z) (order : list Z)
  (bottom_input output_data : buffer scalar_t)
  (batches channels depth height width : Z)
  (kernel_d kernel_h kernel_w stride_d stride_h stride_w : Z) (j : Z) :
  0 < gridDim -> 0 < blockDim ->
  Permutation order (grid_indices gridDim blockDim nthreads) ->
  fold_left
    (fun out index =>
       SoftPool1dForward_thread bottom_input batches channels width kernel_w
         stride_w index out) order output_data j =
  SoftPool1dForward nthreads bottom_input batches channels width kernel_w
    stride_w output_data j
  /\
  fold_left
    (fun out index =>
       SoftPool2dForward_thread bottom_input batches channels height width
         kernel_h kernel_w stride_h stride_w index out) order output_data j =
  SoftPool2dForward nthreads bottom_input batches channels height width
    kernel_h kernel_w stride_h stride_w output_data j
  /\
  fold_left
    (fun out index =>
       SoftPool3dForward_thread bottom_input batches channels depth height
         width kernel_d kernel_h kernel_w stride_d stride_h stride_w
         index out) order output_data j =
  SoftPool3dForward nthreads bottom_input batches channels depth height width
    kernel_d kernel_h kernel_w stride_d stride_h stride_w output_data j.
Proof.
  intros Hg Hb Hp.
  assert (Hp' : Permutation order (range nthreads)).
  { apply (Permutation_trans Hp). apply grid_indices_range; assumption. }
  split; [|split].
  - apply (own_cells_any_order
             (SoftPool1dForward_thread bottom_input batches channels width
                kernel_w stride_w)); [| |exact Hp'].
    + intros i out k Hk.
      apply (SoftPool1dForward_thread_spec bottom_input batches channels
               width kernel_w stride_w i out). exact Hk.
    + intros i out out'.
      destruct (SoftPool1dForward_thread_spec bottom_input batches channels
                  width kernel_w stride_w i out) as [_ ->].
      destruct (SoftPool1dForward_thread_spec bottom_input batches channels
                  width kernel_w stride_w i out') as [_ ->].
      reflexivity.
  - apply (own_cells_any_order
             (SoftPool2dForward_thread bottom_input batches channels
                height width kernel_h kernel_w stride_h stride_w));
      [| |exact Hp'].
    + intros i out k Hk.
      apply (SoftPool2dForward_thread_spec bottom_input batches channels
               height width kernel_h kernel_w stride_h stride_w i out).
      exact Hk.
    + intros i out out'.
      destruct (SoftPool2dForward_thread_spec bottom_input batches channels
                  height width kernel_h kernel_w stride_h stride_w i out)
        as [_ ->].
      destruct (SoftPool2dForward_thread_spec bottom_input batches channels
                  height width kernel_h kernel_w stride_h stride_w i out')
        as [_ ->].
      reflexivity.
  - apply (own_cells_any_order
             (SoftPool3dForward_thread bottom_input batches channels
                depth height width kernel_d kernel_h kernel_w
                stride_d stride_h stride_w)); [| |exact Hp'].
    + intros i out k Hk.
      apply (SoftPool3dForward_thread_spec bottom_input batches channels
               depth height width kernel_d kernel_h kernel_w
               stride_d stride_h stride_w i out).
      exact Hk.
    + intros i out out'.
      destruct (SoftPool3dForward_thread_spec bottom_input batches channels
                  depth height width kernel_d kernel_h kernel_w
                  stride_d stride_h stride_w i out) as [_ ->].
      destruct (SoftPool3dForward_thread_spec bottom_input batches channels
                  depth height width kernel_d kernel_h kernel_w
                  stride_d stride_h stride_w i out') as [_ ->].
      reflexivity.
Qed.

(** X3 with the indices of a launch of two blocks of two threads worked
    backwards. *)
Lemma forward_launch_any_thread_order_witness :
  fold_left
    (fun out index =>
       @SoftPool1dForward_thread R R_float (fun i => IZR i) 1 1 4 2 2
         index out) (rev (grid_indices 2 2 2)) (fun _ => 0%R) 1 =
  @SoftPool1dForward R R_float 2 (fun i => IZR i) 1 1 4 2 2 (fun _ => 0%R) 1
  /\
  fold_left
    (fun out index =>
       @SoftPool2dForward_thread R R_float (fun i => IZR i) 1 1 4 4 2 2 2 2
         index out) (rev (grid_indices 2 2 2)) (fun _ => 0%R) 1 =
  @SoftPool2dForward R R_float 2 (fun i => IZR i) 1 1 4 4 2 2 2 2
    (fun _ => 0%R) 1
  /\
  fold_left
    (fun out index =>
       @SoftPool3dForward_thread R R_float (fun i => IZR i) 1 1 4 4 4
         2 2 2 2 2 2 index out) (rev (grid_indices 2 2 2)) (fun _ => 0%R) 1 =
  @SoftPool3dForward R R_float 2 (fun i => IZR i) 1 1 4 4 4 2 2 2 2 2 2
    (fun _ => 0%R) 1.
Proof.
  apply (@forward_launch_any_thread_order R R_float 2 2 2
           (rev (grid_indices 2 2 2)) (fun i => IZR i) (fun _ => 0%R)
           1 1 4 4 4 2 2 2 2 2 2 1).
  - lia.
  - lia.
  - apply Permutation_sym. apply Permutation_rev.
Defined.




(** ** The safe numeric primitives *)

(** A nonzero argument is clamped to a magnitude within the bounds. *)
Lemma clamp_magnitude_bounds_aux (upper lower n lo up : R) :
  (0 <= lo <= up)%R -> n <> 0%R ->
  (lo <= Rabs (@clamp R (R_scalar upper lower) n lo up))%R /\
  (Rabs (@clamp R (R_scalar upper lower) n lo up) <= up)%R.
Proof.
  intros Hb Hn.
  assert (Hm : (lo <= Rmax lo (Rmin (Rabs n) up) <= up)%R).
  { split; [apply Rmax_l|]. apply Rmax_lub; [lra|apply Rmin_r]. }
  split; [|apply R_clamp_abs_le; lra].
  rewrite R_clamp_eq.
  destruct (Rtotal_order n 0) as [Hx | [ Hx | Hx ] ]; [|contradiction|].
  - rewrite (R_sgn_neg upper lower n Hx).
    replace (Rmax lo (Rmin (Rabs n) up) * -1)%R
      with (- Rmax lo (Rmin (Rabs n) up))%R by lra.
    rewrite Rabs_Ropp, Rabs_right by lra. lra.
  - rewrite (R_sgn_pos upper lower n Hx), Rmult_1_r.
    rewrite Rabs_right by lra. lra.
Qed.

(** X5.  [sgn] has three values for every element type: the conversions of
    -1, 0 and 1.  On the reals it is 1 exactly on the positive numbers, -1
    exactly on the negative ones and 0 at 0; in binary64 a NaN, which
    compares false both ways, and both zeros have [sgn] 0. *)
Theorem sgn_three_values :
  (forall (scalar_t : Type) (ops : Scalar scalar_t) (val : scalar_t),
     @sgn scalar_t ops val = s_of_int (-1) \/
     @sgn scalar_t ops val = s_of_int 0 \/
     @sgn scalar_t ops val = s_of_int 1) /\
  (forall (upper lower x : R),
     (@sgn R (R_scalar upper lower) x = 1%R <-> (0 < x)%R) /\
     (@sgn R (R_scalar upper lower) x = (-1)%R <-> (x < 0)%R) /\
     (@sgn R (R_scalar upper lower) x = 0%R <-> x = 0%R)) /\
  (forall device_exp : float -> float,
     @sgn float (double_scalar device_exp) PrimFloat.nan = 0%float /\
     @sgn float (double_scalar device_exp) 0%float = 0%float /\
     @sgn float (double_scalar device_exp) (-0)%float = 0%float).
Proof.
  split; [|split].
  - intros scalar_t ops val. unfold sgn.
    destruct (s_lt (s_of_int 0) val), (s_lt val (s_of_int 0)); cbn [Z.b2z].
    + right. left. reflexivity.
    + right. right. reflexivity.
    + left. reflexivity.
    + right. left. reflexivity.
  - intros upper lower x.
    destruct (Rtotal_order x 0) as [Hx | [ -> | Hx ] ].
    + rewrite R_sgn_neg by exact Hx. repeat split; intros; lra.
    + rewrite R_sgn_zero. repeat split; intros; lra.
    + rewrite R_sgn_pos by exact Hx. repeat split; intros; lra.
  - intros device_exp. repeat split.
Qed.

(** X6.  [clamp] on the reals with [0 <= lower <= upper]: the result has
    magnitude at most [upper], and at least [lower] unless the argument is
    0; it never has the sign opposite to its argument; and an argument
    whose magnitude is already within the bounds comes back unchanged. *)
Theorem clamp_bounds_magnitude_keeps_sign (upper lower n lo up : R) :
  (0 <= lo <= up)%R ->
  (Rabs (@clamp R (R_scalar upper lower) n lo up) <= up)%R /\
  (n <> 0%R -> (lo <= Rabs (@clamp R (R_scalar upper lower) n lo up))%R) /\
  (0 <= @clamp R (R_scalar upper lower) n lo up * n)%R /\
  ((lo <= Rabs n <= up)%R -> @clamp R (R_scalar upper lower) n lo up = n).
Proof.
  intros Hb.
  assert (Hm : (lo <= Rmax lo (Rmin (Rabs n) up) <= up)%R).
  { split; [apply Rmax_l|]. apply Rmax_lub; [lra|apply Rmin_r]. }
  split; [apply R_clamp_abs_le; lra|]. split; [|split].
  - intros Hn. apply clamp_magnitude_bounds_aux; assumption.
  - rewrite R_clamp_eq.
    destruct (Rtotal_order n 0) as [Hx | [ -> | Hx ] ].
    + rewrite (R_sgn_neg upper lower n Hx). nra.
    + lra.
    + rewrite (R_sgn_pos upper lower n Hx). nra.
  - apply R_clamp_id.
Qed.

(** X6 at -3 between 2 and 5. *)
Lemma clamp_bounds_magnitude_keeps_sign_witness :
  (Rabs (@clamp R R_float (-3) 2 5) <= 5)%R /\
  (2 <= Rabs (@clamp R R_float (-3) 2 5))%R /\
  (0 <= @clamp R R_float (-3) 2 5 * -3)%R /\
  (@clamp R R_float (-3) 2 5 = -3)%R.
Proof.
  destruct (clamp_bounds_magnitude_keeps_sign FLT_MAX FLT_MIN
              (-3)%R 2%R 5%R) as [H1 [H2 [H3 H4]]]; [lra|].
  repeat split; [exact H1|apply H2; lra|exact H3|apply H4].
  unfold Rabs. destruct (Rcase_abs (-3)); lra.
Defined.

(** X7.  [clamp] on the reals with [0 <= lower <= upper] is odd and
    idempotent: clamping the opposite gives the opposite, and clamping a
    clamped value again changes nothing. *)
Theorem clamp_odd_idempotent (upper lower n lo up : R) :
  (0 <= lo <= up)%R ->
  @clamp R (R_scalar upper lower) (- n)%R lo up =
  (- @clamp R (R_scalar upper lower) n lo up)%R /\
  @clamp R (R_scalar upper lower) (@clamp R (R_scalar upper lower) n lo up)
    lo up = @clamp R (R_scalar upper lower) n lo up.
Proof.
  intros Hb. split.
  - rewrite !R_clamp_eq, Rabs_Ropp.
    destruct (Rtotal_order n 0) as [Hx | [ -> | Hx ] ].
    + rewrite (R_sgn_neg upper lower n Hx).
      rewrite (R_sgn_pos upper lower (- n)) by lra. lra.
    + rewrite Ropp_0, R_sgn_zero. lra.
    + rewrite (R_sgn_pos upper lower n Hx).
      rewrite (R_sgn_neg upper lower (- n)) by lra. lra.
  - destruct (Req_dec n 0) as [->|Hn].
    + rewrite !R_clamp_zero. reflexivity.
    + destruct (clamp_magnitude_bounds_aux upper lower n lo up Hb Hn)
        as [Hlo Hup].
      apply R_clamp_id. lra.
Qed.

(** X7 at 7 between 2 and 5. *)
Lemma clamp_odd_idempotent_witness :
  (@clamp R R_float (- 7) 2 5 = - @clamp R R_float 7 2 5)%R /\
  (@clamp R R_float (@clamp R R_float 7 2 5) 2 5 = @clamp R R_float 7 2 5)%R.
Proof.
  apply (clamp_odd_idempotent FLT_MAX FLT_MIN 7%R 2%R 5%R). lra.
Defined.

(** ** The kernels away from the limits *)

Section InRange.

Variables upper lower : R.

#[local] Abbreviation ops := (R_scalar upper lower).

#[local] Hint Extern 0 (Scalar R) =>
  exact (R_scalar upper lower) : typeclass_instances.










End InRange.

(** ** Which cells the forward kernels write *)

Section ForwardEveryCell.

Context {scalar_t : Type} `{Scalar scalar_t}.


(** Every cell after a forward kernel: the cells of the threads hold their
    window's result, the others what they held. *)
Lemma SoftPool1dForward_every_cell (nthreads : Z)
  (bottom_input : buffer scalar_t) (batches channels dim kernel_d stride_d : Z)
  (output_data : buffer scalar_t) (j : Z) :
  SoftPool1dForward nthreads bottom_input batches channels dim kernel_d
    stride_d output_data j =
  if (0 <=? j) && (j <? nthreads)
  then softpool
         (map bottom_input
            (window_1d channels dim kernel_d stride_d
               (j ÷ (dim ÷ stride_d) ÷ channels)
               (Z.rem (j ÷ (dim ÷ stride_d)) channels)
               (Z.rem j (dim ÷ stride_d))))
  else output_data j.
Proof.
  unfold SoftPool1dForward.
  apply (kernel_loop_cell
           (SoftPool1dForward_thread bottom_input batches channels dim
              kernel_d stride_d)
           (fun index =>
              softpool
                (map bottom_input
                   (window_1d channels dim kernel_d stride_d
                      (index ÷ (dim ÷ stride_d) ÷ channels)
                      (Z.rem (index ÷ (dim ÷ stride_d)) channels)
                      (Z.rem index (dim ÷ stride_d)))))).
  - intros i out k Hk.
    apply (SoftPool1dForward_thread_spec bottom_input batches channels dim
             kernel_d stride_d i out). exact Hk.
  - intros i out.
    apply (SoftPool1dForward_thread_spec bottom_input batches channels dim
             kernel_d stride_d i out).
Qed.

Lemma SoftPool2dForward_every_cell (nthreads : Z)
  (bottom_input : buffer scalar_t)
  (batches channels height width kernel_h kernel_w stride_h stride_w : Z)
  (output_data : buffer scalar_t) (j : Z) :
  SoftPool2dForward nthreads bottom_input batches channels height width
    kernel_h kernel_w stride_h stride_w output_data j =
  if (0 <=? j) && (j <? nthreads)
  then softpool
         (map bottom_input
            (window_2d channels height width kernel_h kernel_w stride_h
               stride_w
               (j ÷ (width ÷ stride_w) ÷ (height ÷ stride_h) ÷ channels)
               (Z.rem (j ÷ (width ÷ stride_w) ÷ (height ÷ stride_h)) channels)
               (Z.rem (j ÷ (width ÷ stride_w)) (height ÷ stride_h))
               (Z.rem j (width ÷ stride_w))))
  else output_data j.
Proof.
  unfold SoftPool2dForward.
  apply (kernel_loop_cell
           (SoftPool2dForward_thread bottom_input batches channels height
              width kernel_h kernel_w stride_h stride_w)
           (fun index =>
              softpool
                (map bottom_input
                   (window_2d channels height width kernel_h kernel_w
                      stride_h stride_w
                      (index ÷ (width ÷ stride_w) ÷ (height ÷ stride_h)
                       ÷ channels)
                      (Z.rem (index ÷ (width ÷ stride_w) ÷ (height ÷ stride_h))
                         channels)
                      (Z.rem (index ÷ (width ÷ stride_w)) (height ÷ stride_h))
                      (Z.rem index (width ÷ stride_w)))))).
  - intros i out k Hk.
    apply (SoftPool2dForward_thread_spec bottom_input batches channels
             height width kernel_h kernel_w stride_h stride_w i out).
    exact Hk.
  - intros i out.
    apply (SoftPool2dForward_thread_spec bottom_input batches channels
             height width kernel_h kernel_w stride_h stride_w i out).
Qed.

Lemma SoftPool3dForward_every_cell (nthreads : Z)
  (bottom_input : buffer scalar_t) (batches channels depth height width : Z)
  (kernel_d kernel_h kernel_w stride_d stride_h stride_w : Z)
  (output_data : buffer scalar_t) (j : Z) :
  SoftPool3dForward nthreads bottom_input batches channels depth height width
    kernel_d kernel_h kernel_w stride_d stride_h stride_w output_data j =
  if (0 <=? j) && (j <? nthreads)
  then
    let pooled_depth := depth ÷ stride_d in
    let pooled_height := height ÷ stride_h in
    let pooled_width := width ÷ stride_w in
    let pw := Z.rem j pooled_width in
    let ph := Z.rem (j ÷ pooled_width) pooled_height in
    let pd := Z.rem (j ÷ pooled_width ÷ pooled_height) pooled_depth in
    let c := Z.rem (j ÷ pooled_width ÷ pooled_height ÷ pooled_depth) channels in
    let n := j ÷ pooled_width ÷ pooled_height ÷ pooled_depth ÷ channels in
    softpool
      (map (ptr_add bottom_input ((n * channels + c) * depth * height * width))
         (visited_offsets_3d depth height width kernel_d kernel_h kernel_w
            stride_d stride_h stride_w pd ph pw))
  else output_data j.
Proof.
  unfold SoftPool3dForward.
  apply (kernel_loop_cell
           (SoftPool3dForward_thread bottom_input batches channels depth
              height width kernel_d kernel_h kernel_w stride_d stride_h
              stride_w)
           (fun j =>
              let pooled_depth := depth ÷ stride_d in
              let pooled_height := height ÷ stride_h in
              let pooled_width := width ÷ stride_w in
              let pw := Z.rem j pooled_width in
              let ph := Z.rem (j ÷ pooled_width) pooled_height in
              let pd := Z.rem (j ÷ pooled_width ÷ pooled_height) pooled_depth in
              let c :=
                Z.rem (j ÷ pooled_width ÷ pooled_height ÷ pooled_depth)
                  channels in
              let n :=
                j ÷ pooled_width ÷ pooled_height ÷ pooled_depth ÷ channels in
              softpool
                (map (ptr_add bottom_input
                        ((n * channels + c) * depth * height * width))
                   (visited_offsets_3d depth height width kernel_d kernel_h
                      kernel_w stride_d stride_h stride_w pd ph pw)))).
  - intros i out k Hk.
    apply (SoftPool3dForward_thread_spec bottom_input batches channels
             depth height width kernel_d kernel_h kernel_w
             stride_d stride_h stride_w i out).
    exact Hk.
  - intros i out.
    apply (SoftPool3dForward_thread_spec bottom_input batches channels
             depth height width kernel_d kernel_h kernel_w
             stride_d stride_h stride_w i out).
Qed.

End ForwardEveryCell.



(** ** The thread count of the launchers *)















(** ** The forward kernels away from the limits *)





(** ** The backward kernels as a whole *)

Section BackwardScatter3d.

Context {scalar_t : Type} `{Scalar scalar_t}.

Lemma for_loop_window_3d_base {S : Type}
  (depth height width kernel_d kernel_h kernel_w : Z)
  (stride_d stride_h stride_w pd ph pw : Z)
  (g : Z -> S -> S) (s : S) :
  for_loop kernel_d
    (fun id acc =>
       let d_offset := pd * stride_d - kernel_d ÷ 2 + id in
       if (d_offset >=? depth) || (d_offset <? 0) then acc else
       for_loop kernel_h
         (fun iy acc =>
            let y_offset := ph * stride_h - kernel_h ÷ 2 + iy in
            if (y_offset >=? height) || (y_offset <? 0) then acc else
            for_loop kernel_w
              (fun ix acc =>
                 let x_offset := pw * stride_w - kernel_w ÷ 2 + ix in
                 if (x_offset >=? width) || (x_offset <? 0) then acc else
                 g (d_offset * height + y_offset * width + x_offset) acc)
              acc) acc) s =
  fold_left (fun acc o => g o acc)
    (visited_offsets_3d depth height width kernel_d kernel_h kernel_w
       stride_d stride_h stride_w pd ph pw) s.
Proof.
  rewrite <- for_loop_window_3d. apply for_loop_ext.
  intros id acc. cbv zeta.
  replace (pd * stride_d - kernel_d ÷ 2 + id)
    with (pd * stride_d + id - kernel_d ÷ 2) by lia.
  destruct ((pd * stride_d + id - kernel_d ÷ 2 >=? depth)
            || (pd * stride_d + id - kernel_d ÷ 2 <? 0)); [reflexivity|].
  apply for_loop_ext. intros iy acc'.
  replace (ph * stride_h - kernel_h ÷ 2 + iy)
    with (ph * stride_h + iy - kernel_h ÷ 2) by lia.
  destruct ((ph * stride_h + iy - kernel_h ÷ 2 >=? height)
            || (ph * stride_h + iy - kernel_h ÷ 2 <? 0)); [reflexivity|].
  apply for_loop_ext. intros ix acc''.
  replace (pw * stride_w - kernel_w ÷ 2 + ix)
    with (pw * stride_w + ix - kernel_w ÷ 2) by lia.
  reflexivity.
Qed.

(** The adds of the 3D backward thread of [index]. *)
Lemma SoftPool3dBackward_thread_spec (diff_output data_input : buffer scalar_t)
  (batches channels depth height width : Z)
  (kernel_d kernel_h kernel_w stride_d stride_h stride_w : Z)
  (index : Z) (diff_input : buffer scalar_t) :
  let pooled_depth := depth ÷ stride_d in
  let pooled_height := width ÷ stride_h in
  let pooled_width := width ÷ stride_w in
  let pw := Z.rem index pooled_width in
  let ph := Z.rem (index ÷ pooled_width) pooled_height in
  let pd := Z.rem (index ÷ pooled_width ÷ pooled_height) pooled_depth in
  let c :=
    Z.rem (index ÷ pooled_width ÷ pooled_height ÷ pooled_depth) channels in
  let n := index ÷ pooled_width ÷ pooled_height ÷ pooled_depth ÷ channels in
  SoftPool3dBackward_thread diff_output data_input batches channels depth
    height width kernel_d kernel_h kernel_w stride_d stride_h stride_w
    index diff_input =
  scatter diff_input
    (thread_adds
       (ptr_add data_input ((n * channels + c) * depth * height * width))
       (diff_output index) ((n * channels + c) * depth * height * width)
       (visited_offsets_3d depth height width kernel_d kernel_h kernel_w
          stride_d stride_h stride_w pd ph pw)).
Proof.
  intros pooled_depth pooled_height pooled_width pw ph pd c n.
  unfold SoftPool3dBackward_thread. cbv zeta.
  fold pooled_depth pooled_height pooled_width. fold pw ph pd c n.
  set (p := ptr_add data_input
              ((n * channels + c) * depth * height * width)).
  rewrite_loop (for_loop_window_3d_base depth height width kernel_d kernel_h
                  kernel_w stride_d stride_h stride_w pd ph pw
                  (pass1_step p)).
  set (ws := clamp _ n_limits_min n_limits_max).
  rewrite_loop (for_loop_window_3d_base depth height width kernel_d kernel_h
                  kernel_w stride_d stride_h stride_w pd ph pw
                  (fun o q => backward_update p ws (diff_output index)
                                ((n * channels + c) * depth * height * width)
                                o q)).
  apply (backward_passes p (diff_output index)
           ((n * channels + c) * depth * height * width) _ diff_input).
Qed.

(** Each backward kernel is the scatter of the adds of its threads. *)
Lemma SoftPool1dBackward_scatter (nthreads : Z)
  (diff_output data_input : buffer scalar_t)
  (batches channels dim kernel_d stride_d : Z) :
  exists adds : Z -> list (Z * scalar_t),
    (forall q,
       SoftPool1dBackward nthreads diff_output data_input batches channels
         dim kernel_d stride_d q =
       scatter q (flat_map adds (range nthreads))) /\
    forall i, exists p L offset0, adds i = thread_adds p (diff_output i) offset0 L.
Proof.
  eexists. split.
  - intros q. unfold SoftPool1dBackward.
    apply (kernel_loop_scatter
             (fun index =>
                thread_adds
                  (ptr_add data_input
                     ((index ÷ (dim ÷ stride_d) ÷ channels * channels +
                       Z.rem (index ÷ (dim ÷ stride_d)) channels) * dim))
                  (diff_output index)
                  ((index ÷ (dim ÷ stride_d) ÷ channels * channels +
                    Z.rem (index ÷ (dim ÷ stride_d)) channels) * dim)
                  (window_axis (Z.rem index (dim ÷ stride_d)) stride_d
                     kernel_d dim))).
    intros i q'. apply SoftPool1dBackward_thread_spec.
  - intros i. cbv beta. eexists. eexists. eexists. reflexivity.
Qed.

Lemma SoftPool2dBackward_scatter (nthreads : Z)
  (diff_output data_input : buffer scalar_t)
  (batches channels height width kernel_h kernel_w stride_h stride_w : Z) :
  exists adds : Z -> list (Z * scalar_t),
    (forall q,
       SoftPool2dBackward nthreads diff_output data_input batches channels
         height width kernel_h kernel_w stride_h stride_w q =
       scatter q (flat_map adds (range nthreads))) /\
    forall i, exists p L offset0, adds i = thread_adds p (diff_output i) offset0 L.
Proof.
  eexists. split.
  - intros q. unfold SoftPool2dBackward.
    apply (kernel_loop_scatter
             (fun index =>
                let pooled_height := height ÷ stride_h in
                let pooled_width := width ÷ stride_w in
                let pw := Z.rem index pooled_width in
                let ph := Z.rem (index ÷ pooled_width) pooled_height in
                let c :=
                  Z.rem (index ÷ pooled_width ÷ pooled_height) channels in
                let n := index ÷ pooled_width ÷ pooled_height ÷ channels in
                thread_adds
                  (ptr_add data_input ((n * channels + c) * height * width))
                  (diff_output index) ((n * channels + c) * height * width)
                  (window_offsets_2d height width kernel_h kernel_w stride_h
                     stride_w ph pw))).
    intros i q'. apply SoftPool2dBackward_thread_spec.
  - intros i. cbv beta zeta. eexists. eexists. eexists. reflexivity.
Qed.

Lemma SoftPool3dBackward_scatter (nthreads : Z)
  (diff_output data_input : buffer scalar_t)
  (batches channels depth height width : Z)
  (kernel_d kernel_h kernel_w stride_d stride_h stride_w : Z) :
  exists adds : Z -> list (Z * scalar_t),
    (forall q,
       SoftPool3dBackward nthreads diff_output data_input batches channels
         depth height width kernel_d kernel_h kernel_w stride_d stride_h
         stride_w q =
       scatter q (flat_map adds (range nthreads))) /\
    forall i, exists p L offset0, adds i = thread_adds p (diff_output i) offset0 L.
Proof.
  eexists. split.
  - intros q. unfold SoftPool3dBackward.
    apply (kernel_loop_scatter
             (fun index =>
                let pooled_depth := depth ÷ stride_d in
                let pooled_height := width ÷ stride_h in
                let pooled_width := width ÷ stride_w in
                let pw := Z.rem index pooled_width in
                let ph := Z.rem (index ÷ pooled_width) pooled_height in
                let pd :=
                  Z.rem (index ÷ pooled_width ÷ pooled_height) pooled_depth in
                let c :=
                  Z.rem (index ÷ pooled_width ÷ pooled_height ÷ pooled_depth)
                    channels in
                let n :=
                  index ÷ pooled_width ÷ pooled_height ÷ pooled_depth
                  ÷ channels in
                thread_adds
                  (ptr_add data_input
                     ((n * channels + c) * depth * height * width))
                  (diff_output index)
                  ((n * channels + c) * depth * height * width)
                  (visited_offsets_3d depth height width kernel_d kernel_h
                     kernel_w stride_d stride_h stride_w pd ph pw))).
    intros i q'. apply SoftPool3dBackward_thread_spec.
  - intros i. cbv beta zeta. eexists. eexists. eexists. reflexivity.
Qed.

End BackwardScatter3d.

Section BackwardWhole.

Variables upper lower : R.

#[local] Abbreviation ops := (R_scalar upper lower).

#[local] Hint Extern 0 (Scalar R) =>
  exact (R_scalar upper lower) : typeclass_instances.


(** The adds of a thread whose output gradient is zero are all zero. *)
Lemma R_thread_adds_zero (p : buffer R) (offset0 : Z) (L : list Z) (a : Z * R) :
  In a (@thread_adds R ops p 0%R offset0 L) -> snd a = 0%R.
Proof.
  unfold thread_adds. intros Ha. apply in_map_iff in Ha.
  destruct Ha as [off [<- _]]. cbn [snd].
  unfold weighted_gradient. real_ops. rewrite Rmult_0_l.
  apply R_clamp_zero.
Qed.

Lemma R_scatter_zero_adds (q : buffer R) (adds : list (Z * R)) (j : Z) :
  (forall a, In a adds -> snd a = 0%R) -> @scatter R ops q adds j = q j.
Proof.
  intros Hz. rewrite (R_scatter_at upper lower).
  rewrite (R_sum_zero upper lower); [lra|].
  intros a Ha. destruct (fst a =? j); [apply Hz; exact Ha|reflexivity].
Qed.

End BackwardWhole.


(** X15.  In exact arithmetic a zero output gradient leaves the gradient
    buffer as it was, whatever the input holds: each thread then adds only
    zeros (one, two and three dimensions). *)
Theorem zero_gradient_leaves_buffer (upper lower : R) (nthreads : Z)
  (diff_output data_input diff_input : buffer R)
  (batches channels depth height width : Z)
  (kernel_d kernel_h kernel_w stride_d stride_h stride_w : Z) (j : Z) :
  (forall i, diff_output i = 0%R) ->
  @SoftPool1dBackward R (R_scalar upper lower) nthreads diff_output data_input
    batches channels width kernel_w stride_w diff_input j = diff_input j
  /\
  @SoftPool2dBackward R (R_scalar upper lower) nthreads diff_output data_input
    batches channels height width kernel_h kernel_w stride_h stride_w
    diff_input j = diff_input j
  /\
  @SoftPool3dBackward R (R_scalar upper lower) nthreads diff_output data_input
    batches channels depth height width kernel_d kernel_h kernel_w
    stride_d stride_h stride_w diff_input j = diff_input j.
Proof.
  intros Hz.
  assert (Hadds : forall adds : Z -> list (Z * R),
             (forall i, exists p L offset0,
                 adds i = @thread_adds R (R_scalar upper lower) p
                            (diff_output i) offset0 L) ->
             forall a, In a (flat_map adds (range nthreads)) -> snd a = 0%R).
  { intros adds Hform a Ha. apply in_flat_map in Ha.
    destruct Ha as [i [_ Ha]].
    destruct (Hform i) as [p [L [offset0 E]]]. rewrite E, Hz in Ha.
    apply (R_thread_adds_zero upper lower p offset0 L a Ha). }
  repeat split.
  - destruct (@SoftPool1dBackward_scatter R (R_scalar upper lower) nthreads
                diff_output data_input batches channels width kernel_w
                stride_w) as [adds [Hs Hform]].
    rewrite Hs. apply R_scatter_zero_adds. apply Hadds. exact Hform.
  - destruct (@SoftPool2dBackward_scatter R (R_scalar upper lower) nthreads
                diff_output data_input batches channels height width
                kernel_h kernel_w stride_h stride_w) as [adds [Hs Hform]].
    rewrite Hs. apply R_scatter_zero_adds. apply Hadds. exact Hform.
  - destruct (@SoftPool3dBackward_scatter R (R_scalar upper lower) nthreads
                diff_output data_input batches channels depth height width
                kernel_d kernel_h kernel_w stride_d stride_h stride_w)
      as [adds [Hs Hform]].
    rewrite Hs. apply R_scatter_zero_adds. apply Hadds. exact Hform.
Qed.

(** X15 with four threads on an input that holds its own offsets and a
    gradient buffer of fives, at cell 1. *)
Lemma zero_gradient_leaves_buffer_witness :
  @SoftPool1dBackward R R_float 4 (fun _ => 0%R) (fun i => IZR i)
    1 1 4 2 2 (fun _ => 5%R) 1 = 5%R
  /\
  @SoftPool2dBackward R R_float 4 (fun _ => 0%R) (fun i => IZR i)
    1 1 4 4 2 2 2 2 (fun _ => 5%R) 1 = 5%R
  /\
  @SoftPool3dBackward R R_float 4 (fun _ => 0%R) (fun i => IZR i)
    1 1 4 4 4 2 2 2 2 2 2 (fun _ => 5%R) 1 = 5%R.
Proof.
  apply (zero_gradient_leaves_buffer FLT_MAX FLT_MIN 4 (fun _ => 0%R)
           (fun i => IZR i) (fun _ => 5%R) 1 1 4 4 4 2 2 2 2 2 2 1).
  intros i. reflexivity.
Defined.

(** ** Conservation of the gradient *)

Section Conservation.

Variables upper lower : R.

#[local] Abbreviation ops := (R_scalar upper lower).

#[local] Hint Extern 0 (Scalar R) =>
  exact (R_scalar upper lower) : typeclass_instances.







End Conservation.




(** ** One kernel for fewer dimensions *)

Lemma window_axis_unit : window_axis 0 1 1 1 = [0].
Proof. reflexivity. Qed.

Lemma window_2d_unit_height (channels width kernel_w stride_w n c pw : Z) :
  window_2d channels 1 width 1 kernel_w 1 stride_w n c 0 pw =
  window_1d channels width kernel_w stride_w n c pw.
Proof.
  unfold window_2d, window_offsets_2d, window_1d.
  rewrite window_axis_unit. cbn [flat_map]. rewrite app_nil_r, map_map.
  apply map_ext. intros x. lia.
Qed.

Lemma visited_offsets_3d_unit_depth
  (height width kernel_h kernel_w stride_h stride_w ph pw : Z) :
  visited_offsets_3d 1 height width 1 kernel_h kernel_w 1 stride_h stride_w
    0 ph pw =
  window_offsets_2d height width kernel_h kernel_w stride_h stride_w ph pw.
Proof.
  unfold visited_offsets_3d, window_offsets_2d.
  rewrite window_axis_unit. cbn [flat_map]. rewrite app_nil_r.
  apply flat_map_ext. intros y. apply map_ext. intros x. lia.
Qed.

(** X17.  The forward kernels agree across dimensions: the 2D kernel on
    images of height 1 (kernel and stride 1 along the height) leaves what
    the 1D kernel leaves on the rows, and the 3D kernel on volumes of depth
    1 (kernel and stride 1 along the depth) leaves what the 2D kernel
    leaves on the images, at every cell and for every element type. *)
Theorem forward_kernels_agree_across_dimensions {scalar_t : Type}
  `{Scalar scalar_t} (nthreads : Z) (bottom_input output_data : buffer scalar_t)
  (batches channels height width kernel_h kernel_w stride_h stride_w : Z)
  (j : Z) :
  SoftPool2dForward nthreads bottom_input batches channels 1 width
    1 kernel_w 1 stride_w output_data j =
  SoftPool1dForward nthreads bottom_input batches channels width kernel_w
    stride_w output_data j
  /\
  SoftPool3dForward nthreads bottom_input batches channels 1 height width
    1 kernel_h kernel_w 1 stride_h stride_w output_data j =
  SoftPool2dForward nthreads bottom_input batches channels height width
    kernel_h kernel_w stride_h stride_w output_data j.
Proof.
  split.
  - rewrite SoftPool2dForward_every_cell, SoftPool1dForward_every_cell.
    destruct ((0 <=? j) && (j <? nthreads)); [|reflexivity].
    change (1 ÷ 1) with 1. rewrite !Z.quot_1_r, Z.rem_1_r.
    rewrite window_2d_unit_height. reflexivity.
  - rewrite SoftPool3dForward_every_cell, SoftPool2dForward_every_cell.
    destruct ((0 <=? j) && (j <? nthreads)); [|reflexivity].
    cbv zeta. change (1 ÷ 1) with 1. rewrite !Z.quot_1_r, Z.rem_1_r.
    rewrite visited_offsets_3d_unit_depth.
    unfold window_2d. rewrite map_map. f_equal.
    apply map_ext. intros o. unfold ptr_add. f_equal. lia.
Qed.

(** ** Memory the kernels touch *)








Section Untouched.

Context {scalar_t : Type} `{Scalar scalar_t}.


End Untouched.



(** ** Values that are not finite *)

(** X20.  [clamp] in binary64 with the bounds the kernels pass: an
    infinity comes back as the largest finite number with its sign, and a
    NaN comes back as 0, below the lower bound, because [sgn] of a NaN
    is 0. *)
Theorem clamp_of_infinities_and_nan (device_exp : float -> float) :
  @clamp float (double_scalar device_exp) PrimFloat.infinity
    (@zero float (double_scalar device_exp)) DBL_MAX = DBL_MAX /\
  @clamp float (double_scalar device_exp) PrimFloat.neg_infinity
    (@zero float (double_scalar device_exp)) DBL_MAX = (- DBL_MAX)%float /\
  @clamp float (double_scalar device_exp) PrimFloat.nan
    (@zero float (double_scalar device_exp)) DBL_MAX = 0%float /\
  @clamp float (double_scalar device_exp) PrimFloat.nan DBL_MIN DBL_MAX =
  0%float.
Proof. repeat split. Qed.

(** ** Launches without threads *)

(** X21.  For a thread count that is not positive [GET_BLOCKS] asks for no
    block at all: the rounded-up quotient is not capped from below. *)
Theorem GET_BLOCKS_of_no_thread (N : Z) :
  N <= 0 -> GET_BLOCKS N <= 0.
Proof.
  intros HN. unfold GET_BLOCKS, THREADS_PER_BLOCK. cbv zeta.
  assert (Hq : (N + 1024 - 1) ÷ 1024 <= 0).
  { destruct (Z.le_gt_cases 0 (N + 1024 - 1)) as [Hnn|Hneg].
    - rewrite Z.quot_small; lia.
    - apply Z.quot_le_upper_bound; lia. }
  lia.
Qed.

(** X21 at 0 threads. *)
Lemma GET_BLOCKS_of_no_thread_witness : GET_BLOCKS 0 <= 0.
Proof. apply (GET_BLOCKS_of_no_thread 0). lia. Defined.

(** ** The output stays within the window *)




